(** * AuthAction (src/action/auth-mobile.js): PIN, fingerprint and key store

    A shallow embedding of the mobile authentication action of the
    lightning app, and the properties of its PIN and key-store flows.

    Modelling decisions, all visible in the definitions below:

    - JavaScript strings are [string]; [s.length] is [String.length],
      [a + b] is [String.append], [a === b] is [String.eqb], and the
      truthiness of a string is "not the empty string".
    - The injected collaborators (navigation, alert, keychain, legacy
      secure store, fingerprint reader, random bytes, wallet action) are
      not part of the file.  Each one is a small piece of state in [World]
      and every call to one of them is appended to [trace], so that "was
      called once", "was not called" and "was called with" are statements
      about the events a call emits.
    - [async] methods are run to completion: [await e] is sequencing.  A
      rejected promise is [Rejected], which keeps the world reached so far.
      A call that is not awaited ([this.checkNewPin()] inside
      [pushPinDigit]) cannot reject its caller: see [detach].
    - Closures handed to the alert are first-order values ([Callback]) with
      an interpreter ([runCallback]); they only run when the button is
      pressed ([pressButton]). *)

From Stdlib.Strings Require Import String Ascii Byte.
From Stdlib Require Import NArith List Lia.
From stdpp Require Import base gmap strings list.

Open Scope string_scope.

(** ** Collaborators *)

(** Modelled from the spec: the current secure store (react-native-keychain)
    is absent from the sources.  Section 6 gives its contract: [get] returns
    the stored secret or an absent signal, [set] is an idempotent overwrite.
    It is a finite map from the server name to the credentials. *)
Module Keychain.
Record Credentials := { username : string; password : string }.

Inductive Accessible := WHEN_UNLOCKED_THIS_DEVICE_ONLY.

Definition getInternetCredentials
    (server : string) (k : gmap string Credentials) : option Credentials :=
  k !! server.

Definition setInternetCredentials
    (server user pass : string) (k : gmap string Credentials)
    : gmap string Credentials :=
  <[server := {| username := user; password := pass |}]> k.
End Keychain.

(** Modelled from the spec: the legacy store (expo SecureStore) is absent
    from the sources.  Section 6: [get(key)] returns the secret or absent,
    and the store is read-only for this module. *)
Module SecureStore.
Inductive KeychainAccessible := WHEN_UNLOCKED_THIS_DEVICE_ONLY.

Definition getItemAsync (key : string) (s : gmap string string)
    : option string :=
  s !! key.
End SecureStore.

(** Modelled from the spec: the biometric adapter is absent from the
    sources.  Section 6: [hasHardware], [isEnrolled] and
    [authenticate(prompt) -> {success}], with no effect beyond the platform
    challenge.  The outcomes of the coming challenges are a queue; a
    challenge nobody answers is a cancel. *)
Module Fingerprint.
Record Device := {
  hardware : bool;
  enrolled : bool;
  challenges : list bool
}.

Record AuthResult := { success : bool }.

Definition hasHardwareAsync (d : Device) : bool := hardware d.
Definition isEnrolledAsync (d : Device) : bool := enrolled d.

Definition authenticateAsync (d : Device) : AuthResult * Device :=
  match challenges d with
  | [] => ({| success := false |}, d)
  | ok :: rest =>
      ({| success := ok |},
       {| hardware := hardware d; enrolled := enrolled d;
          challenges := rest |})
  end.
End Fingerprint.

(** Modelled from the spec: react-native-randombytes is absent from the
    sources.  [randomBytes(n, cb)] calls back with an error or with exactly
    [n] bytes.  The platform entropy is a pool of bytes; a pool that cannot
    serve [n] bytes is the error case. *)
Module RandomBytes.
Definition randomBytes (n : nat) (pool : list byte)
    : option (list byte) * list byte :=
  if Nat.leb n (length pool) then (Some (take n pool), drop n pool)
  else (None, pool).
End RandomBytes.

(** ** Buffer.toString('hex') *)

Definition hexAlphabet : string := "0123456789abcdef".

Definition hexDigit (n : N) : ascii :=
  match String.get (N.to_nat n) hexAlphabet with
  | Some c => c
  | None => "0"%char
  end.

Definition hexByte (b : byte) : string :=
  let n := Byte.to_N b in
  String (hexDigit (n / 16)) (String (hexDigit (n mod 16)) EmptyString).

Fixpoint toString_hex (bytes : list byte) : string :=
  match bytes with
  | [] => ""
  | b :: rest => hexByte b ++ toString_hex rest
  end.

Definition isHexChar (c : ascii) : bool :=
  existsb (Ascii.eqb c) (list_ascii_of_string hexAlphabet).

Fixpoint allChars (p : ascii -> bool) (s : string) : bool :=
  match s with
  | EmptyString => true
  | String c rest => p c && allChars p rest
  end.

(** ** Application state *)

(** [store.auth]: the three PIN inputs. *)
Record AuthStore := {
  newPin : string;
  pinVerify : string;
  pin : string
}.

(** [store.wallet]: the three password fields this module writes. *)
Record WalletStore := {
  newPassword : string;
  passwordVerify : string;
  password : string
}.

(** The [param] of [pushPinDigit] and [popPinDigit] names a PIN input of
    [store.auth].  The source compares the name with [===]; [paramName]
    gives the name, and the dispatch below compares names. *)
Inductive PinParam := ParamNewPin | ParamPinVerify | ParamPin.

#[global] Instance PinParam_eq_dec : EqDecision PinParam.
Proof. solve_decision. Defined.

Definition paramName (p : PinParam) : string :=
  match p with
  | ParamNewPin => "newPin"
  | ParamPinVerify => "pinVerify"
  | ParamPin => "pin"
  end.

(** [auth[param]] *)
Definition authGet (p : PinParam) (a : AuthStore) : string :=
  match p with
  | ParamNewPin => newPin a
  | ParamPinVerify => pinVerify a
  | ParamPin => pin a
  end.

(** [auth[param] = v] *)
Definition authSet (p : PinParam) (v : string) (a : AuthStore) : AuthStore :=
  match p with
  | ParamNewPin =>
      {| newPin := v; pinVerify := pinVerify a; pin := pin a |}
  | ParamPinVerify =>
      {| newPin := newPin a; pinVerify := v; pin := pin a |}
  | ParamPin =>
      {| newPin := newPin a; pinVerify := pinVerify a; pin := v |}
  end.

(** The two closures the source hands to the alert:
    [() => this.initSetPin()] and [() => this.initPin()]. *)
Inductive Callback := CbInitSetPin | CbInitPin.

Record Button := { text : string; onPress : Callback }.

Inductive JsError := RandomBytesError.

(** Every call into a collaborator, with its arguments. *)
Inductive Event :=
| NavGoSetPassword
| NavGoSetPasswordConfirm
| NavGoPassword
| AlertAlert (title message : string) (buttons : list Button)
| KeychainGet (server : string)
| KeychainSet (server user pass : string) (accessible : Keychain.Accessible)
| SecureStoreGet (key : string)
    (keychainAccessible : SecureStore.KeychainAccessible)
| FingerprintHasHardware
| FingerprintIsEnrolled
| FingerprintAuthenticate (msg : string)
| RandomBytesCall (n : nat)
| WalletCheckNewPassword (newPass passVerify : string)
| WalletCheckPassword (pass : string)
| UnhandledRejection (e : JsError).

Record World := {
  auth : AuthStore;
  wallet : WalletStore;
  keychain : gmap string Keychain.Credentials;
  secureStore : gmap string string;
  fingerprint : Fingerprint.Device;
  entropy : list byte;
  trace : list Event
}.

Definition withAuth (a : AuthStore) (w : World) : World :=
  {| auth := a; wallet := wallet w; keychain := keychain w;
     secureStore := secureStore w; fingerprint := fingerprint w;
     entropy := entropy w; trace := trace w |}.

Definition withWallet (x : WalletStore) (w : World) : World :=
  {| auth := auth w; wallet := x; keychain := keychain w;
     secureStore := secureStore w; fingerprint := fingerprint w;
     entropy := entropy w; trace := trace w |}.

Definition withKeychain (k : gmap string Keychain.Credentials) (w : World)
    : World :=
  {| auth := auth w; wallet := wallet w; keychain := k;
     secureStore := secureStore w; fingerprint := fingerprint w;
     entropy := entropy w; trace := trace w |}.

Definition withFingerprint (d : Fingerprint.Device) (w : World) : World :=
  {| auth := auth w; wallet := wallet w; keychain := keychain w;
     secureStore := secureStore w; fingerprint := d;
     entropy := entropy w; trace := trace w |}.

Definition withEntropy (pool : list byte) (w : World) : World :=
  {| auth := auth w; wallet := wallet w; keychain := keychain w;
     secureStore := secureStore w; fingerprint := fingerprint w;
     entropy := pool; trace := trace w |}.

Definition withTrace (t : list Event) (w : World) : World :=
  {| auth := auth w; wallet := wallet w; keychain := keychain w;
     secureStore := secureStore w; fingerprint := fingerprint w;
     entropy := entropy w; trace := t |}.

(** ** The monad of actions: state, and promise rejection *)

Inductive Outcome (A : Type) :=
| Resolved (a : A) (w : World)
| Rejected (e : JsError) (w : World).

Arguments Resolved {A} a w.
Arguments Rejected {A} e w.

Definition Action (A : Type) : Type := World -> Outcome A.

Definition ret {A} (a : A) : Action A := fun w => Resolved a w.

Definition reject {A} (e : JsError) : Action A := fun w => Rejected e w.

Definition bind {A B} (m : Action A) (k : A -> Action B) : Action B :=
  fun w =>
    match m w with
    | Resolved a w' => k a w'
    | Rejected e w' => Rejected e w'
    end.

Notation "x <- m ;; k" := (bind m (fun x => k))
  (at level 20, m at level 99, k at level 200, only parsing).
Notation "m ;; k" := (bind m (fun _ => k))
  (at level 100, k at level 200, only parsing).

Definition worldOf {A} (o : Outcome A) : World :=
  match o with
  | Resolved _ w => w
  | Rejected _ w => w
  end.

Definition emit (ev : Event) : Action unit :=
  fun w => Resolved tt (withTrace (trace w ++ [ev]) w).

(** The events a call emitted: what it appended to the trace. *)
Definition emitted {A} (w : World) (o : Outcome A) : list Event :=
  drop (length (trace w)) (trace (worldOf o)).

(** A promise nobody awaits: the caller continues normally whatever the
    promise does; a rejection is left unhandled. *)
Definition detach (m : Action unit) : Action unit :=
  fun w =>
    match m w with
    | Resolved _ w' => Resolved tt w'
    | Rejected e w' => emit (UnhandledRejection e) w'
    end.

(** JavaScript truthiness of a string. *)
Definition truthy (s : string) : bool := negb (String.eqb s "").

(** [s.slice(0, -1)] *)
Definition slice_0_m1 (s : string) : string :=
  substring 0 (String.length s - 1) s.

Definition isAlert (ev : Event) : bool :=
  match ev with
  | AlertAlert _ _ _ => true
  | _ => false
  end.

Definition isNav (ev : Event) : bool :=
  match ev with
  | NavGoSetPassword | NavGoSetPasswordConfirm | NavGoPassword => true
  | _ => false
  end.

Definition isKeychainSet (ev : Event) : bool :=
  match ev with
  | KeychainSet _ _ _ _ => true
  | _ => false
  end.

Definition isSecureStoreGet (ev : Event) : bool :=
  match ev with
  | SecureStoreGet _ _ => true
  | _ => false
  end.

(** The calls a key-store read can make: both stores, and the write-back. *)
Definition isKeyStoreEvent (ev : Event) : bool :=
  match ev with
  | KeychainGet _ | KeychainSet _ _ _ _ | SecureStoreGet _ _ => true
  | _ => false
  end.

Definition isFingerprintEvent (ev : Event) : bool :=
  match ev with
  | FingerprintHasHardware | FingerprintIsEnrolled
  | FingerprintAuthenticate _ => true
  | _ => false
  end.

(** ** The action *)

Definition VERSION : string := "0".
Definition PIN : string := "DevicePin".
Definition PASS : string := "WalletPassword".

Module AuthAction.

Section WithPinLength.

(** [PIN_LENGTH] is imported from [../config], which is not among the
    sources: it is a parameter of the development. *)
Variable PIN_LENGTH : nat.

(** *** Collaborator calls *)

Definition nav_goSetPassword : Action unit := emit NavGoSetPassword.
Definition nav_goSetPasswordConfirm : Action unit :=
  emit NavGoSetPasswordConfirm.
Definition nav_goPassword : Action unit := emit NavGoPassword.

Definition Alert_alert (title message : string) (buttons : list Button)
    : Action unit :=
  emit (AlertAlert title message buttons).

Definition Keychain_getInternetCredentials (server : string)
    : Action (option Keychain.Credentials) :=
  emit (KeychainGet server) ;;
  fun w => Resolved (Keychain.getInternetCredentials server (keychain w)) w.

Definition Keychain_setInternetCredentials
    (server user pass : string) (accessible : Keychain.Accessible)
    : Action unit :=
  emit (KeychainSet server user pass accessible) ;;
  fun w =>
    Resolved tt
      (withKeychain
         (Keychain.setInternetCredentials server user pass (keychain w)) w).

Definition SecureStore_getItemAsync
    (key : string) (opt : SecureStore.KeychainAccessible)
    : Action (option string) :=
  emit (SecureStoreGet key opt) ;;
  fun w => Resolved (SecureStore.getItemAsync key (secureStore w)) w.

Definition Fingerprint_hasHardwareAsync : Action bool :=
  emit FingerprintHasHardware ;;
  fun w => Resolved (Fingerprint.hasHardwareAsync (fingerprint w)) w.

Definition Fingerprint_isEnrolledAsync : Action bool :=
  emit FingerprintIsEnrolled ;;
  fun w => Resolved (Fingerprint.isEnrolledAsync (fingerprint w)) w.

Definition Fingerprint_authenticateAsync (msg : string)
    : Action Fingerprint.AuthResult :=
  emit (FingerprintAuthenticate msg) ;;
  fun w =>
    let '(r, d) := Fingerprint.authenticateAsync (fingerprint w) in
    Resolved r (withFingerprint d w).

Definition randomBytes (n : nat) : Action (option (list byte)) :=
  emit (RandomBytesCall n) ;;
  fun w =>
    let '(r, pool) := RandomBytes.randomBytes n (entropy w) in
    Resolved r (withEntropy pool w).

(** Modelled from the spec: the wallet action is absent from the sources.
    Section 6: [checkNewPassword] and [checkPassword] consume the values
    this action has already placed into [store.wallet].  The call is
    recorded with the values it consumes; what the wallet does with them
    is outside this module. *)
Definition wallet_checkNewPassword : Action unit :=
  fun w =>
    emit (WalletCheckNewPassword (newPassword (wallet w))
            (passwordVerify (wallet w))) w.

Definition wallet_checkPassword : Action unit :=
  fun w => emit (WalletCheckPassword (password (wallet w))) w.

(** *** Reads and writes of the store *)

Definition readAuth : Action AuthStore := fun w => Resolved (auth w) w.

Definition writeAuth (p : PinParam) (v : string) : Action unit :=
  fun w => Resolved tt (withAuth (authSet p v (auth w)) w).

Definition set_wallet_newPassword (v : string) : Action unit :=
  fun w =>
    Resolved tt
      (withWallet
         {| newPassword := v;
            passwordVerify := passwordVerify (wallet w);
            password := password (wallet w) |} w).

Definition set_wallet_passwordVerify (v : string) : Action unit :=
  fun w =>
    Resolved tt
      (withWallet
         {| newPassword := newPassword (wallet w);
            passwordVerify := v;
            password := password (wallet w) |} w).

Definition set_wallet_password (v : string) : Action unit :=
  fun w =>
    Resolved tt
      (withWallet
         {| newPassword := newPassword (wallet w);
            passwordVerify := passwordVerify (wallet w);
            password := v |} w).

(** *** PIN actions *)

Definition initSetPin : Action unit :=
  writeAuth ParamNewPin "" ;;
  writeAuth ParamPinVerify "" ;;
  nav_goSetPassword.

Definition initPin : Action unit :=
  writeAuth ParamPin "" ;;
  nav_goPassword.

Definition _alert (title : string) (callback : Callback) : Action unit :=
  Alert_alert title "" [{| text := "TRY AGAIN"; onPress := callback |}].

Definition versionedKey (key : string) : string :=
  VERSION ++ "_" ++ key.

Definition _setToKeyStore (key value : string) : Action unit :=
  let vKey := versionedKey key in
  Keychain_setInternetCredentials vKey "" value
    Keychain.WHEN_UNLOCKED_THIS_DEVICE_ONLY.

Definition _getFromKeyStoreLegacy (key : string) : Action (option string) :=
  SecureStore_getItemAsync key SecureStore.WHEN_UNLOCKED_THIS_DEVICE_ONLY.

Definition _migrateKeyStoreValue (key : string) : Action string :=
  legacyValue <- _getFromKeyStoreLegacy key ;;
  match legacyValue with
  | None => ret ""
  | Some v =>
      if negb (truthy v) then ret ""
      else _setToKeyStore key v ;; ret v
  end.

Definition _getFromKeyStore (key : string) : Action string :=
  let vKey := versionedKey key in
  credentials <- Keychain_getInternetCredentials vKey ;;
  match credentials with
  | Some c => ret (Keychain.password c)
  | None => _migrateKeyStoreValue key
  end.

Definition _secureRandomPassword : Action string :=
  r <- randomBytes 32 ;;
  match r with
  | None => reject RandomBytesError
  | Some bytes => ret (toString_hex bytes)
  end.

Definition _generateWalletPassword : Action unit :=
  newPass <- _secureRandomPassword ;;
  _setToKeyStore PASS newPass ;;
  set_wallet_newPassword newPass ;;
  set_wallet_passwordVerify newPass ;;
  wallet_checkNewPassword.

Definition _unlockWallet : Action unit :=
  storedPass <- _getFromKeyStore PASS ;;
  set_wallet_password storedPass ;;
  wallet_checkPassword.

Definition checkNewPin : Action unit :=
  a <- readAuth ;;
  if negb (Nat.eqb (String.length (newPin a)) PIN_LENGTH)
     || negb (String.eqb (newPin a) (pinVerify a))
  then _alert "PINs don't match" CbInitSetPin
  else
    _setToKeyStore PIN (newPin a) ;;
    _generateWalletPassword.

Definition checkPin : Action unit :=
  a <- readAuth ;;
  storedPin <- _getFromKeyStore PIN ;;
  if negb (String.eqb (pin a) storedPin)
  then _alert "Incorrect PIN" CbInitPin
  else _unlockWallet.

Definition pushPinDigit (digit : string) (param : PinParam) : Action unit :=
  a <- readAuth ;;
  (if Nat.ltb (String.length (authGet param a)) PIN_LENGTH
   then writeAuth param (authGet param a ++ digit)
   else ret tt) ;;
  a' <- readAuth ;;
  if Nat.ltb (String.length (authGet param a')) PIN_LENGTH then ret tt
  else if String.eqb (paramName param) "newPin" then nav_goSetPasswordConfirm
  else if String.eqb (paramName param) "pinVerify" then detach checkNewPin
  else if String.eqb (paramName param) "pin" then detach checkPin
  else ret tt.

Definition popPinDigit (param : PinParam) : Action unit :=
  a <- readAuth ;;
  if truthy (authGet param a)
  then writeAuth param (slice_0_m1 (authGet param a))
  else if String.eqb (paramName param) "pinVerify" then initSetPin
  else ret tt.

(** *** Fingerprint *)

Definition tryFingerprint : Action unit :=
  hasHardware <- Fingerprint_hasHardwareAsync ;;
  isEnrolled <- Fingerprint_isEnrolledAsync ;;
  if negb hasHardware || negb isEnrolled then ret tt
  else
    let msg := "Unlock your Wallet" in
    r <- Fingerprint_authenticateAsync msg ;;
    if negb (Fingerprint.success r) then ret tt
    else _unlockWallet.

(** *** The user presses a button of an alert *)

Definition runCallback (cb : Callback) : Action unit :=
  match cb with
  | CbInitSetPin => initSetPin
  | CbInitPin => initPin
  end.

Definition pressButton (b : Button) : Action unit := runCallback (onPress b).

End WithPinLength.

End AuthAction.

Import AuthAction.

(** ** Sequences of controller operations *)

(** The public operations of the controller, as the user interface
    dispatches them. *)
Inductive Op :=
| OpInitSetPin
| OpInitPin
| OpPushPinDigit (digit : string) (param : PinParam)
| OpPopPinDigit (param : PinParam)
| OpCheckNewPin
| OpCheckPin
| OpTryFingerprint.

Definition runOp (L : nat) (op : Op) : Action unit :=
  match op with
  | OpInitSetPin => initSetPin
  | OpInitPin => initPin
  | OpPushPinDigit digit param => pushPinDigit L digit param
  | OpPopPinDigit param => popPinDigit param
  | OpCheckNewPin => checkNewPin L
  | OpCheckPin => checkPin
  | OpTryFingerprint => tryFingerprint
  end.

(** Every world the application goes through while the operations run one
    after the other; a rejected operation leaves the world it reached. *)
Fixpoint statesAlong (L : nat) (ops : list Op) (w : World) : list World :=
  match ops with
  | [] => [w]
  | op :: rest => w :: statesAlong L rest (worldOf (runOp L op w))
  end.

(** The digit of a push is one character. *)
Definition singleDigit (op : Op) : Prop :=
  match op with
  | OpPushPinDigit digit _ => String.length digit = 1
  | _ => True
  end.

Definition pinBounded (L : nat) (p : PinParam) (w : World) : Prop :=
  (String.length (authGet p (auth w)) <= L)%nat.

(** ** Worlds used in the examples *)

Definition noPins : AuthStore :=
  {| newPin := ""; pinVerify := ""; pin := "" |}.

Definition noPasswords : WalletStore :=
  {| newPassword := ""; passwordVerify := ""; password := "" |}.

Definition noReader : Fingerprint.Device :=
  {| Fingerprint.hardware := false; Fingerprint.enrolled := false;
     Fingerprint.challenges := [] |}.

(** A device right after installation: nothing typed, nothing stored, and
    [n] bytes of entropy available. *)
Definition freshWorld (n : nat) : World :=
  {| auth := noPins; wallet := noPasswords; keychain := ∅;
     secureStore := ∅; fingerprint := noReader;
     entropy := repeat "*"%byte n; trace := [] |}.

(** A device upgraded from the previous version: nothing in the current
    store, one value in the legacy store. *)
Definition legacyWorld (key value : string) : World :=
  {| auth := noPins; wallet := noPasswords; keychain := ∅;
     secureStore := {[ key := value ]}; fingerprint := noReader;
     entropy := []; trace := [] |}.

(** A device that has been set up, now locked: PIN "445566" and a wallet
    secret in the current store, [typed] in the PIN input, and a reader
    whose next challenge gives [challenge]. *)
Definition lockedWorld (typed : string) (challenge : bool) : World :=
  {| auth := {| newPin := ""; pinVerify := ""; pin := typed |};
     wallet := noPasswords;
     keychain :=
       <["0_DevicePin" :=
           {| Keychain.username := ""; Keychain.password := "445566" |}]>
         (<["0_WalletPassword" :=
              {| Keychain.username := "";
                 Keychain.password := toString_hex (repeat "*"%byte 32) |}]>
            ∅);
     secureStore := ∅;
     fingerprint :=
       {| Fingerprint.hardware := true; Fingerprint.enrolled := true;
          Fingerprint.challenges := [challenge] |};
     entropy := []; trace := [] |}.

Definition tryAgain (cb : Callback) : Button :=
  {| text := "TRY AGAIN"; onPress := cb |}.

(** ** Whole flows *)

(** The value a promise resolved with, if it resolved. *)
Definition valueOf {A} (o : Outcome A) : option A :=
  match o with
  | Resolved a _ => Some a
  | Rejected _ _ => None
  end.

(** The world after the operations have run one after the other. *)
Definition runOps (L : nat) (ops : list Op) (w : World) : World :=
  fold_left (fun w' op => worldOf (runOp L op w')) ops w.

(** The user types [digits] into the field [param], one key at a time. *)
Definition typeDigits (param : PinParam) (digits : list string) : list Op :=
  map (fun digit => OpPushPinDigit digit param) digits.

Definition oneChar (digit : string) : Prop := String.length digit = 1%nat.

(** The keys of the current store this action writes. *)
Definition ownKey (k : string) : Prop :=
  k = versionedKey PIN \/ k = versionedKey PASS.

(** From [w] to [w'] the legacy store is untouched and the current store
    differs at most under the two keys of this action. *)
Definition storesKept (w w' : World) : Prop :=
  secureStore w' = secureStore w /\
  forall k : string, ~ ownKey k -> keychain w' !! k = keychain w !! k.

(** Reading hex back, to compare encodings: the value of a hex digit and
    the byte two digits stand for. *)
Definition hexValue (c : ascii) : N :=
  match index 0 (String c EmptyString) hexAlphabet with
  | Some i => N.of_nat i
  | None => 0
  end.

Fixpoint fromHex (s : string) : option (list byte) :=
  match s with
  | EmptyString => Some []
  | String _ EmptyString => None
  | String hi (String lo rest) =>
      match Byte.of_N (16 * hexValue hi + hexValue lo), fromHex rest with
      | Some b, Some bytes => Some (b :: bytes)
      | _, _ => None
      end
  end.

(** Unfolds the actions down to the state they thread. *)
Ltac run_action :=
  unfold checkNewPin, checkPin, tryFingerprint, _unlockWallet,
    _generateWalletPassword, _secureRandomPassword, _setToKeyStore, _alert,
    initSetPin, initPin, runCallback, pressButton,
    Keychain_setInternetCredentials, Keychain.setInternetCredentials,
    Alert_alert, randomBytes, RandomBytes.randomBytes,
    wallet_checkNewPassword, wallet_checkPassword,
    set_wallet_newPassword, set_wallet_passwordVerify, set_wallet_password,
    Fingerprint_hasHardwareAsync, Fingerprint_isEnrolledAsync,
    Fingerprint_authenticateAsync, Fingerprint.hasHardwareAsync,
    Fingerprint.isEnrolledAsync, Fingerprint.authenticateAsync,
    nav_goSetPassword, nav_goSetPasswordConfirm, nav_goPassword,
    readAuth, writeAuth, detach, bind, emit, ret, reject.

(** ** Strings and hex encoding *)

Lemma length_append (s t : string) :
  String.length (s ++ t) = (String.length s + String.length t)%nat.
Proof. induction s as [|c s IH]; simpl; [reflexivity | now rewrite IH]. Qed.

Lemma truthy_true (s : string) : truthy s = true <-> s <> "".
Proof.
  unfold truthy. rewrite Bool.negb_true_iff. apply String.eqb_neq.
Qed.

Lemma truthy_false (s : string) : truthy s = false <-> s = "".
Proof.
  unfold truthy. rewrite Bool.negb_false_iff. apply String.eqb_eq.
Qed.

Lemma substring_prefix (s t : string) :
  substring 0 (String.length s) (s ++ t) = s.
Proof.
  induction s as [|c s IH]; simpl.
  - now destruct t.
  - now rewrite IH.
Qed.

Lemma slice_0_m1_snoc (s : string) (c : ascii) :
  slice_0_m1 (s ++ String c "") = s.
Proof.
  unfold slice_0_m1. rewrite length_append. simpl.
  replace (String.length s + 1 - 1)%nat with (String.length s) by lia.
  apply substring_prefix.
Qed.

Lemma nonempty_snoc (s : string) :
  s <> "" -> exists r c, s = r ++ String c "".
Proof.
  induction s as [|a s IH]; intros Hne; [congruence|].
  destruct s as [|b s'].
  - exists "", a. reflexivity.
  - destruct IH as (r & c & Hr); [discriminate|].
    exists (String a r), c. rewrite Hr. reflexivity.
Qed.

Lemma length_toString_hex (bytes : list byte) :
  String.length (toString_hex bytes) = (2 * length bytes)%nat.
Proof.
  induction bytes as [|b rest IH]; [reflexivity|].
  change (toString_hex (b :: rest)) with (hexByte b ++ toString_hex rest).
  rewrite length_append, IH. cbn [length]. unfold hexByte. cbn. lia.
Qed.

Lemma hexByte_isHex (b : byte) : allChars isHexChar (hexByte b) = true.
Proof. destruct b; reflexivity. Qed.

Lemma allChars_append (p : ascii -> bool) (s t : string) :
  allChars p (s ++ t) = allChars p s && allChars p t.
Proof.
  induction s as [|c s IH]; simpl; [reflexivity|].
  rewrite IH. now rewrite andb_assoc.
Qed.

Lemma toString_hex_isHex (bytes : list byte) :
  allChars isHexChar (toString_hex bytes) = true.
Proof.
  induction bytes as [|b rest IH]; [reflexivity|].
  change (toString_hex (b :: rest)) with (hexByte b ++ toString_hex rest).
  now rewrite allChars_append, hexByte_isHex, IH.
Qed.

(** ** Traces *)

Lemma emitted_app {A} (w : World) (o : Outcome A) (evs : list Event) :
  trace (worldOf o) = (trace w ++ evs)%list -> emitted w o = evs.
Proof. unfold emitted. intros ->. apply drop_app_length. Qed.

(** ** The key store *)

Lemma versionedKey_eq (key : string) : versionedKey key = "0_" ++ key.
Proof. reflexivity. Qed.

(** A value in the current store is returned without looking further. *)
Lemma getFromKeyStore_hit (key : string) (c : Keychain.Credentials)
    (w : World) :
  keychain w !! versionedKey key = Some c ->
  _getFromKeyStore key w =
    Resolved (Keychain.password c)
      (withTrace (trace w ++ [KeychainGet (versionedKey key)]) w).
Proof.
  intros H. unfold _getFromKeyStore, Keychain_getInternetCredentials,
    Keychain.getInternetCredentials, bind, emit, ret. simpl.
  now rewrite H.
Qed.

(** Nothing usable in either store: both are read, nothing is written. *)
Lemma getFromKeyStore_miss (key : string) (w : World) :
  keychain w !! versionedKey key = None ->
  secureStore w !! key = None \/ secureStore w !! key = Some "" ->
  _getFromKeyStore key w =
    Resolved ""
      (withTrace
         (trace w ++
          [KeychainGet (versionedKey key);
           SecureStoreGet key SecureStore.WHEN_UNLOCKED_THIS_DEVICE_ONLY]) w).
Proof.
  intros Hk Hs. unfold _getFromKeyStore, Keychain_getInternetCredentials,
    Keychain.getInternetCredentials, _migrateKeyStoreValue,
    _getFromKeyStoreLegacy, SecureStore_getItemAsync,
    SecureStore.getItemAsync, bind, emit, ret. simpl.
  rewrite Hk. simpl.
  destruct Hs as [-> | ->]; simpl; unfold withTrace; simpl;
    now rewrite <- app_assoc.
Qed.

(** A value in the legacy store only: it is written back and returned. *)
Lemma getFromKeyStore_migrate (key v : string) (w : World) :
  keychain w !! versionedKey key = None ->
  secureStore w !! key = Some v ->
  v <> "" ->
  _getFromKeyStore key w =
    Resolved v
      (withKeychain
         (<[versionedKey key :=
              {| Keychain.username := ""; Keychain.password := v |}]>
            (keychain w))
         (withTrace
            (trace w ++
             [KeychainGet (versionedKey key);
              SecureStoreGet key SecureStore.WHEN_UNLOCKED_THIS_DEVICE_ONLY;
              KeychainSet (versionedKey key) "" v
                Keychain.WHEN_UNLOCKED_THIS_DEVICE_ONLY]) w)).
Proof.
  intros Hk Hs Hv. apply truthy_true in Hv.
  unfold _getFromKeyStore, Keychain_getInternetCredentials,
    Keychain.getInternetCredentials, _migrateKeyStoreValue,
    _getFromKeyStoreLegacy, SecureStore_getItemAsync,
    SecureStore.getItemAsync, _setToKeyStore,
    Keychain_setInternetCredentials, Keychain.setInternetCredentials,
    bind, emit, ret. simpl.
  rewrite Hk. simpl. rewrite Hs, Hv. simpl.
  unfold withKeychain, withTrace. simpl.
  now rewrite <- !app_assoc.
Qed.

(** C1 (amended): for every key [K] whose value is present only in the
    legacy store and is not the empty string, a single [_getFromKeyStore K]
    resolves to that value, reading the current store, then the legacy
    store, then writing the value into the current store under ["0_" + K];
    a second [_getFromKeyStore K] resolves to the same value with one read
    of the current store and no read of the legacy store. *)
Theorem getFromKeyStore_migrates_once (K v : string) (w : World) :
  keychain w !! ("0_" ++ K) = None ->
  secureStore w !! K = Some v ->
  v <> "" ->
  let o1 := _getFromKeyStore K w in
  let o2 := _getFromKeyStore K (worldOf o1) in
  (exists w1, o1 = Resolved v w1) /\
  keychain (worldOf o1) !! ("0_" ++ K) =
    Some {| Keychain.username := ""; Keychain.password := v |} /\
  emitted w o1 =
    [KeychainGet ("0_" ++ K);
     SecureStoreGet K SecureStore.WHEN_UNLOCKED_THIS_DEVICE_ONLY;
     KeychainSet ("0_" ++ K) "" v Keychain.WHEN_UNLOCKED_THIS_DEVICE_ONLY] /\
  (exists w2, o2 = Resolved v w2) /\
  emitted (worldOf o1) o2 = [KeychainGet ("0_" ++ K)] /\
  filter isSecureStoreGet (emitted (worldOf o1) o2) = [].
Proof.
  intros Hk Hs Hv o1 o2.
  assert (E1 := getFromKeyStore_migrate K v w Hk Hs Hv).
  fold o1 in E1.
  assert (Hw1 : keychain (worldOf o1) !! versionedKey K =
                Some {| Keychain.username := ""; Keychain.password := v |}).
  { rewrite E1. simpl. apply lookup_insert_eq. }
  assert (E2 := getFromKeyStore_hit K _ (worldOf o1) Hw1).
  fold o2 in E2. simpl in E2.
  assert (Em : emitted (worldOf o1) o2 = [KeychainGet ("0_" ++ K)]).
  { apply emitted_app. rewrite E2. reflexivity. }
  repeat split.
  - rewrite E1. eauto.
  - exact Hw1.
  - apply emitted_app. rewrite E1. reflexivity.
  - rewrite E2. eauto.
  - exact Em.
  - rewrite Em. reflexivity.
Qed.

Lemma getFromKeyStore_migrates_once_witness :
  let w := legacyWorld "DevicePin" "445566" in
  let o1 := _getFromKeyStore "DevicePin" w in
  let o2 := _getFromKeyStore "DevicePin" (worldOf o1) in
  (exists w1, o1 = Resolved "445566" w1) /\
  keychain (worldOf o1) !! "0_DevicePin" =
    Some {| Keychain.username := ""; Keychain.password := "445566" |} /\
  emitted w o1 =
    [KeychainGet "0_DevicePin";
     SecureStoreGet "DevicePin" SecureStore.WHEN_UNLOCKED_THIS_DEVICE_ONLY;
     KeychainSet "0_DevicePin" "" "445566"
       Keychain.WHEN_UNLOCKED_THIS_DEVICE_ONLY] /\
  (exists w2, o2 = Resolved "445566" w2) /\
  emitted (worldOf o1) o2 = [KeychainGet "0_DevicePin"] /\
  filter isSecureStoreGet (emitted (worldOf o1) o2) = [].
Proof.
  apply (getFromKeyStore_migrates_once "DevicePin" "445566"
           (legacyWorld "DevicePin" "445566")).
  - reflexivity.
  - reflexivity.
  - discriminate.
Defined.

(** C1, as stated, fails for a legacy value that is the empty string: the
    value is present only in the legacy store, it is not written into the
    current store, and the next read goes to the legacy store again. *)
Lemma getFromKeyStore_empty_legacy_not_migrated :
  let w := legacyWorld "DevicePin" "" in
  let o1 := _getFromKeyStore "DevicePin" w in
  let o2 := _getFromKeyStore "DevicePin" (worldOf o1) in
  keychain w !! "0_DevicePin" = None /\
  secureStore w !! "DevicePin" = Some "" /\
  keychain (worldOf o1) !! "0_DevicePin" = None /\
  ~ filter isSecureStoreGet (emitted (worldOf o1) o2) = [].
Proof.
  repeat split; [vm_compute; discriminate].
Qed.

(** C2: for every key [K] with no value in the current store and none in
    the legacy store, [_getFromKeyStore K] resolves (it does not reject) to
    the empty string; it reads both stores and writes neither. *)
Theorem getFromKeyStore_nothing_stored (K : string) (w : World) :
  keychain w !! ("0_" ++ K) = None ->
  secureStore w !! K = None ->
  exists w',
    _getFromKeyStore K w = Resolved "" w' /\
    keychain w' = keychain w /\
    secureStore w' = secureStore w /\
    emitted w (_getFromKeyStore K w) =
      [KeychainGet ("0_" ++ K);
       SecureStoreGet K SecureStore.WHEN_UNLOCKED_THIS_DEVICE_ONLY].
Proof.
  intros Hk Hs.
  rewrite (getFromKeyStore_miss K w Hk (or_introl Hs)).
  eexists. split; [reflexivity|]. repeat split.
  apply emitted_app. reflexivity.
Qed.

Lemma getFromKeyStore_nothing_stored_witness :
  keychain (freshWorld 0) !! "0_WalletPassword" = None /\
  secureStore (freshWorld 0) !! "WalletPassword" = None /\
  exists w',
    _getFromKeyStore "WalletPassword" (freshWorld 0) = Resolved "" w' /\
    keychain w' = keychain (freshWorld 0) /\
    secureStore w' = secureStore (freshWorld 0) /\
    emitted (freshWorld 0) (_getFromKeyStore "WalletPassword" (freshWorld 0)) =
      [KeychainGet "0_WalletPassword";
       SecureStoreGet "WalletPassword"
         SecureStore.WHEN_UNLOCKED_THIS_DEVICE_ONLY].
Proof.
  split; [reflexivity|]. split; [reflexivity|].
  apply (getFromKeyStore_nothing_stored "WalletPassword" (freshWorld 0));
    reflexivity.
Defined.

(** ** New-PIN verification *)

(** The guard of [checkNewPin], as a proposition. *)
Lemma checkNewPin_guard (L : nat) (a : AuthStore) :
  negb (Nat.eqb (String.length (newPin a)) L)
  || negb (String.eqb (newPin a) (pinVerify a)) = false <->
  newPin a = pinVerify a /\ String.length (newPin a) = L.
Proof.
  rewrite orb_false_iff, !negb_false_iff, Nat.eqb_eq, String.eqb_eq.
  tauto.
Qed.

Lemma checkNewPin_mismatch (L : nat) (w : World) :
  ~ (newPin (auth w) = pinVerify (auth w) /\
     String.length (newPin (auth w)) = L) ->
  checkNewPin L w =
    Resolved tt
      (withTrace
         (trace w ++
          [AlertAlert "PINs don't match" "" [tryAgain CbInitSetPin]]) w).
Proof.
  intros Hno. rewrite <- checkNewPin_guard in Hno.
  apply not_false_is_true in Hno.
  run_action. simpl. rewrite Hno. reflexivity.
Qed.

Lemma checkNewPin_match (L : nat) (w : World) :
  newPin (auth w) = pinVerify (auth w) ->
  String.length (newPin (auth w)) = L ->
  checkNewPin L w =
    (_setToKeyStore PIN (newPin (auth w)) ;; _generateWalletPassword) w.
Proof.
  intros He Hl.
  assert (Hg := proj2 (checkNewPin_guard L (auth w)) (conj He Hl)).
  unfold checkNewPin at 1, readAuth, bind at 1. simpl. rewrite Hg.
  reflexivity.
Qed.

(** With 32 bytes of entropy the secret is generated, stored and mirrored. *)
Lemma generateWalletPassword_resolved (w : World) :
  (32 <= length (entropy w))%nat ->
  let secret := toString_hex (take 32 (entropy w)) in
  _generateWalletPassword w =
    Resolved tt
      {| auth := auth w;
         wallet := {| newPassword := secret; passwordVerify := secret;
                      password := password (wallet w) |};
         keychain :=
           <["0_WalletPassword" :=
               {| Keychain.username := ""; Keychain.password := secret |}]>
             (keychain w);
         secureStore := secureStore w;
         fingerprint := fingerprint w;
         entropy := drop 32 (entropy w);
         trace :=
           trace w ++
           [RandomBytesCall 32;
            KeychainSet "0_WalletPassword" "" secret
              Keychain.WHEN_UNLOCKED_THIS_DEVICE_ONLY;
            WalletCheckNewPassword secret secret] |}.
Proof.
  intros He secret. apply Nat.leb_le in He.
  run_action. cbn -[take drop toString_hex Nat.leb]. rewrite He.
  cbn -[take drop toString_hex]. fold secret.
  unfold withTrace, withKeychain, withWallet, withEntropy.
  cbn -[take drop toString_hex].
  rewrite <- !app_assoc. reflexivity.
Qed.

(** Without them the promise rejects after the call to [randomBytes]. *)
Lemma generateWalletPassword_rejected (w : World) :
  (length (entropy w) < 32)%nat ->
  _generateWalletPassword w =
    Rejected RandomBytesError
      (withTrace (trace w ++ [RandomBytesCall 32]) w).
Proof.
  intros He. apply Nat.leb_gt in He.
  run_action. cbn -[take drop toString_hex Nat.leb]. rewrite He.
  destruct w; reflexivity.
Qed.

(** C3 (amended): [checkNewPin] proceeds to persist the PIN and to generate
    the wallet secret if and only if [newPin] equals [pinVerify] and both
    have length exactly [L], and then shows no alert.  For every other
    combination it resolves after exactly one alert, "PINs don't match",
    whose single TRY AGAIN button runs [initSetPin]; [checkNewPin] itself
    leaves [newPin] and [pinVerify] as they are, and they are reset to the
    empty string when that button is pressed. *)
Theorem checkNewPin_outcome (L : nat) (w : World) :
  let a := auth w in
  let o := checkNewPin L w in
  let matching :=
    newPin a = pinVerify a /\
    String.length (newPin a) = L /\ String.length (pinVerify a) = L in
  (matching <->
   exists rest,
     emitted w o =
       KeychainSet "0_DevicePin" "" (newPin a)
         Keychain.WHEN_UNLOCKED_THIS_DEVICE_ONLY
       :: RandomBytesCall 32 :: rest) /\
  (matching -> filter isAlert (emitted w o) = []) /\
  (~ matching ->
   o = Resolved tt (worldOf o) /\
   emitted w o = [AlertAlert "PINs don't match" "" [tryAgain CbInitSetPin]] /\
   auth (worldOf o) = a /\
   let o' := pressButton (tryAgain CbInitSetPin) (worldOf o) in
   newPin (auth (worldOf o')) = "" /\
   pinVerify (auth (worldOf o')) = "" /\
   emitted (worldOf o) o' = [NavGoSetPassword]).
Proof.
  intros a o matching.
  assert (Hmis : ~ matching ->
            o = Resolved tt
                  (withTrace
                     (trace w ++
                      [AlertAlert "PINs don't match" ""
                         [tryAgain CbInitSetPin]]) w)).
  { intros Hno. apply checkNewPin_mismatch. intros [He Hl]. apply Hno.
    subst a. repeat split; congruence. }
  assert (Hok : matching ->
            exists rest,
              emitted w o =
                KeychainSet "0_DevicePin" "" (newPin a)
                  Keychain.WHEN_UNLOCKED_THIS_DEVICE_ONLY
                :: RandomBytesCall 32 :: rest /\
              filter isAlert (emitted w o) = []).
  { intros (He & Hl & _). subst o.
    rewrite (checkNewPin_match L w He Hl).
    unfold bind at 1, _setToKeyStore, Keychain_setInternetCredentials,
      bind at 1, emit.
    cbn -[_generateWalletPassword].
    match goal with |- context [_generateWalletPassword ?w1] =>
      set (w1' := w1) end.
    destruct (Nat.le_gt_cases 32 (length (entropy w1'))) as [Hen | Hen].
    - rewrite (generateWalletPassword_resolved w1' Hen).
      eexists. split.
      + apply emitted_app. cbn -[take drop toString_hex].
        rewrite <- app_assoc. reflexivity.
      + erewrite emitted_app
          by (cbn -[take drop toString_hex]; rewrite <- app_assoc;
              reflexivity).
        reflexivity.
    - rewrite (generateWalletPassword_rejected w1' Hen).
      eexists. split.
      + apply emitted_app. cbn. rewrite <- app_assoc. reflexivity.
      + erewrite emitted_app by (cbn; rewrite <- app_assoc; reflexivity).
        reflexivity. }
  split; [split|split].
  - intros Hm. destruct (Hok Hm) as (rest & Hr & _). eauto.
  - intros (rest & Hr).
    destruct (String.eqb_spec (newPin a) (pinVerify a)) as [He | Hne];
      [destruct (Nat.eq_dec (String.length (newPin a)) L) as [Hl | Hnl]|].
    + subst matching. repeat split; congruence.
    + exfalso. rewrite Hmis in Hr by (subst matching; tauto).
      erewrite emitted_app in Hr by reflexivity. discriminate.
    + exfalso. rewrite Hmis in Hr by (subst matching; tauto).
      erewrite emitted_app in Hr by reflexivity. discriminate.
  - intros Hm. destruct (Hok Hm) as (rest & _ & Hr). exact Hr.
  - intros Hno. rewrite (Hmis Hno). cbn -[emitted].
    repeat split.
    + apply emitted_app. reflexivity.
    + apply emitted_app. reflexivity.
Qed.

Lemma checkNewPin_outcome_witness :
  let w :=
    withAuth {| newPin := "123456"; pinVerify := "123457"; pin := "" |}
      (freshWorld 32) in
  let o := checkNewPin 6 w in
  let o' := pressButton (tryAgain CbInitSetPin) (worldOf o) in
  emitted w o = [AlertAlert "PINs don't match" "" [tryAgain CbInitSetPin]] /\
  newPin (auth (worldOf o')) = "" /\
  pinVerify (auth (worldOf o')) = "".
Proof.
  pose proof
    (checkNewPin_outcome 6
       (withAuth {| newPin := "123456"; pinVerify := "123457"; pin := "" |}
          (freshWorld 32))) as H.
  destruct H as (_ & _ & H).
  destruct H as (_ & He & _ & Hn & Hv & _).
  - simpl. intros (Heq & _). discriminate Heq.
  - split; [exact He|]. split; [exact Hn | exact Hv].
Defined.

(** C3, as stated, fails: after [checkNewPin] on two different six-digit
    entries one alert is shown, and [newPin] and [pinVerify] still hold what
    was typed. *)
Lemma checkNewPin_mismatch_keeps_entries :
  let w :=
    withAuth {| newPin := "123456"; pinVerify := "123457"; pin := "" |}
      (freshWorld 32) in
  let o := checkNewPin 6 w in
  length (filter isAlert (emitted w o)) = 1%nat /\
  newPin (auth (worldOf o)) = "123456" /\
  pinVerify (auth (worldOf o)) = "123457" /\
  ~ (newPin (auth (worldOf o)) = "" /\ pinVerify (auth (worldOf o)) = "").
Proof.
  repeat split; [vm_compute; intros [H _]; discriminate H].
Qed.

(** C10: when [checkNewPin] takes its failure branch ([newPin] is not of
    length [L], or differs from [pinVerify]) it writes nothing to the secure
    store: the store, and so the credentials under "0_DevicePin" and
    "0_WalletPassword", are what they were before the call. *)
Theorem checkNewPin_failure_writes_nothing (L : nat) (w : World) :
  String.length (newPin (auth w)) <> L \/
  newPin (auth w) <> pinVerify (auth w) ->
  let o := checkNewPin L w in
  keychain (worldOf o) = keychain w /\
  keychain (worldOf o) !! "0_DevicePin" = keychain w !! "0_DevicePin" /\
  keychain (worldOf o) !! "0_WalletPassword" =
    keychain w !! "0_WalletPassword" /\
  filter isKeychainSet (emitted w o) = [].
Proof.
  intros Hfail o. subst o.
  rewrite checkNewPin_mismatch by tauto.
  cbn -[emitted]. repeat split.
  erewrite emitted_app by reflexivity. reflexivity.
Qed.

Lemma checkNewPin_failure_writes_nothing_witness :
  let w :=
    withAuth {| newPin := "12345"; pinVerify := "12345"; pin := "" |}
      (freshWorld 32) in
  let o := checkNewPin 6 w in
  keychain (worldOf o) = keychain w /\
  keychain (worldOf o) !! "0_DevicePin" = keychain w !! "0_DevicePin" /\
  keychain (worldOf o) !! "0_WalletPassword" =
    keychain w !! "0_WalletPassword" /\
  filter isKeychainSet (emitted w o) = [].
Proof.
  apply (checkNewPin_failure_writes_nothing 6
           (withAuth {| newPin := "12345"; pinVerify := "12345"; pin := "" |}
              (freshWorld 32))).
  left. simpl. lia.
Defined.

(** C4: after [checkNewPin] on two equal entries of length [L], with the
    random source serving its 32 bytes, the promise resolves and the secure
    store holds the entered PIN under "0_DevicePin" and, under
    "0_WalletPassword", the hex encoding of those 32 bytes: 64 hexadecimal
    characters.  The same secret is in [wallet.newPassword] and in
    [wallet.passwordVerify], which are therefore equal, and the wallet's
    [checkNewPassword] is called with them. *)
Theorem checkNewPin_success_stores (L : nat) (w : World) :
  newPin (auth w) = pinVerify (auth w) ->
  String.length (newPin (auth w)) = L ->
  (32 <= length (entropy w))%nat ->
  let secret := toString_hex (take 32 (entropy w)) in
  exists w',
    checkNewPin L w = Resolved tt w' /\
    keychain w' !! "0_DevicePin" =
      Some {| Keychain.username := "";
              Keychain.password := newPin (auth w) |} /\
    keychain w' !! "0_WalletPassword" =
      Some {| Keychain.username := ""; Keychain.password := secret |} /\
    String.length secret = 64%nat /\
    allChars isHexChar secret = true /\
    newPassword (wallet w') = secret /\
    passwordVerify (wallet w') = secret /\
    newPassword (wallet w') = passwordVerify (wallet w') /\
    emitted w (checkNewPin L w) =
      [KeychainSet "0_DevicePin" "" (newPin (auth w))
         Keychain.WHEN_UNLOCKED_THIS_DEVICE_ONLY;
       RandomBytesCall 32;
       KeychainSet "0_WalletPassword" "" secret
         Keychain.WHEN_UNLOCKED_THIS_DEVICE_ONLY;
       WalletCheckNewPassword secret secret].
Proof.
  intros He Hl Hen secret.
  rewrite (checkNewPin_match L w He Hl).
  unfold bind at 1, _setToKeyStore, Keychain_setInternetCredentials,
    bind at 1, emit.
  cbn -[_generateWalletPassword].
  match goal with |- context [_generateWalletPassword ?w1] =>
    set (w1' := w1) end.
  assert (Hen' : (32 <= length (entropy w1'))%nat) by exact Hen.
  rewrite (generateWalletPassword_resolved w1' Hen').
  change (entropy w1') with (entropy w). fold secret.
  eexists. split; [reflexivity|].
  cbn -[take drop toString_hex emitted secret].
  repeat split.
  - rewrite lookup_insert_ne by discriminate.
    unfold Keychain.setInternetCredentials. apply lookup_insert_eq.
  - apply lookup_insert_eq.
  - unfold secret. rewrite length_toString_hex, length_take. lia.
  - apply toString_hex_isHex.
  - apply emitted_app. cbn -[take drop toString_hex secret].
    rewrite <- app_assoc. reflexivity.
Qed.

Lemma checkNewPin_success_stores_witness :
  let w :=
    withAuth {| newPin := "123456"; pinVerify := "123456"; pin := "" |}
      (freshWorld 32) in
  let secret := toString_hex (take 32 (entropy w)) in
  exists w',
    checkNewPin 6 w = Resolved tt w' /\
    keychain w' !! "0_DevicePin" =
      Some {| Keychain.username := ""; Keychain.password := "123456" |} /\
    keychain w' !! "0_WalletPassword" =
      Some {| Keychain.username := ""; Keychain.password := secret |} /\
    String.length secret = 64%nat /\
    allChars isHexChar secret = true /\
    newPassword (wallet w') = secret /\
    passwordVerify (wallet w') = secret /\
    newPassword (wallet w') = passwordVerify (wallet w') /\
    emitted w (checkNewPin 6 w) =
      [KeychainSet "0_DevicePin" "" "123456"
         Keychain.WHEN_UNLOCKED_THIS_DEVICE_ONLY;
       RandomBytesCall 32;
       KeychainSet "0_WalletPassword" "" secret
         Keychain.WHEN_UNLOCKED_THIS_DEVICE_ONLY;
       WalletCheckNewPassword secret secret].
Proof.
  apply (checkNewPin_success_stores 6
           (withAuth {| newPin := "123456"; pinVerify := "123456"; pin := "" |}
              (freshWorld 32))).
  - reflexivity.
  - reflexivity.
  - simpl. lia.
Defined.

(** ** Unlocking *)

(** A key-store read always resolves; it touches the current store only,
    and calls nothing but the two stores. *)
Lemma getFromKeyStore_frame (key : string) (w : World) :
  exists v w' evs,
    _getFromKeyStore key w = Resolved v w' /\
    auth w' = auth w /\ wallet w' = wallet w /\
    secureStore w' = secureStore w /\ fingerprint w' = fingerprint w /\
    entropy w' = entropy w /\
    trace w' = (trace w ++ evs)%list /\
    forallb isKeyStoreEvent evs = true.
Proof.
  destruct (keychain w !! versionedKey key) as [c|] eqn:Hk.
  - rewrite (getFromKeyStore_hit key c w Hk).
    do 3 eexists. split; [reflexivity|]. cbn. repeat split.
  - destruct (secureStore w !! key) as [v|] eqn:Hs.
    + destruct (String.eqb_spec v "") as [-> | Hv].
      * rewrite (getFromKeyStore_miss key w Hk (or_intror Hs)).
        do 3 eexists. split; [reflexivity|]. cbn. repeat split.
      * rewrite (getFromKeyStore_migrate key v w Hk Hs Hv).
        do 3 eexists. split; [reflexivity|]. cbn. repeat split.
    + rewrite (getFromKeyStore_miss key w Hk (or_introl Hs)).
      do 3 eexists. split; [reflexivity|]. cbn. repeat split.
Qed.

(** [_unlockWallet]: read the secret, place it in [wallet.password], call
    the wallet. *)
Lemma unlockWallet_resolved (w : World) (storedPass : string) (w1 : World) :
  _getFromKeyStore PASS w = Resolved storedPass w1 ->
  _unlockWallet w =
    Resolved tt
      (withTrace (trace w1 ++ [WalletCheckPassword storedPass])
         (withWallet
            {| newPassword := newPassword (wallet w1);
               passwordVerify := passwordVerify (wallet w1);
               password := storedPass |} w1)).
Proof.
  intros H. unfold _unlockWallet, bind at 1. rewrite H.
  reflexivity.
Qed.

Lemma checkPin_mismatch (w : World) (storedPin : string) (w1 : World) :
  _getFromKeyStore PIN w = Resolved storedPin w1 ->
  pin (auth w) <> storedPin ->
  checkPin w =
    Resolved tt
      (withTrace
         (trace w1 ++ [AlertAlert "Incorrect PIN" "" [tryAgain CbInitPin]])
         w1).
Proof.
  intros H Hne. apply String.eqb_neq in Hne.
  unfold checkPin, readAuth, bind at 1. unfold bind at 1. rewrite H.
  rewrite Hne. reflexivity.
Qed.

Lemma checkPin_match (w : World) (storedPin : string) (w1 : World) :
  _getFromKeyStore PIN w = Resolved storedPin w1 ->
  pin (auth w) = storedPin ->
  checkPin w = _unlockWallet w1.
Proof.
  intros H He. apply String.eqb_eq in He.
  unfold checkPin, readAuth, bind at 1. unfold bind at 1. rewrite H.
  rewrite He. reflexivity.
Qed.

(** C5: [checkPin] reads the stored PIN (with the migration fallback).  It
    shows an alert exactly when the entered [pin] differs from the PIN it
    read: then exactly one alert, "Incorrect PIN", whose TRY AGAIN button
    runs [initPin] (empties [pin], navigates to the PIN view), and the
    wallet state is untouched.  When they are equal it runs [_unlockWallet]:
    it reads the stored wallet secret, places it in [wallet.password] and
    calls the wallet's [checkPassword] with it, and shows no alert. *)
Theorem checkPin_outcome (w : World) :
  exists storedPin w1,
    _getFromKeyStore PIN w = Resolved storedPin w1 /\
    let o := checkPin w in
    (filter isAlert (emitted w o) <> [] <-> pin (auth w) <> storedPin) /\
    (pin (auth w) <> storedPin ->
     o = Resolved tt (worldOf o) /\
     filter isAlert (emitted w o) =
       [AlertAlert "Incorrect PIN" "" [tryAgain CbInitPin]] /\
     emitted w1 o = [AlertAlert "Incorrect PIN" "" [tryAgain CbInitPin]] /\
     wallet (worldOf o) = wallet w /\
     let o' := pressButton (tryAgain CbInitPin) (worldOf o) in
     pin (auth (worldOf o')) = "" /\
     emitted (worldOf o) o' = [NavGoPassword]) /\
    (pin (auth w) = storedPin ->
     exists storedPass w2,
       _getFromKeyStore PASS w1 = Resolved storedPass w2 /\
       o = _unlockWallet w1 /\
       o = Resolved tt (worldOf o) /\
       password (wallet (worldOf o)) = storedPass /\
       emitted w2 o = [WalletCheckPassword storedPass] /\
       filter isAlert (emitted w o) = []).
Proof.
  destruct (getFromKeyStore_frame PIN w)
    as (storedPin & w1 & evs1 & E1 & _ & Hwal1 & _ & _ & _ & Ht1 & Hev1).
  exists storedPin, w1. split; [exact E1|]. intros o.
  assert (Hna : forall evs, forallb isKeyStoreEvent evs = true ->
                  filter isAlert evs = []).
  { induction evs as [|ev evs IH]; [reflexivity|].
    cbn [forallb]. intros [Hev Hrest]%andb_true_iff.
    destruct ev; try discriminate Hev; cbn; auto. }
  assert (Hfail : pin (auth w) <> storedPin ->
            o = Resolved tt
                  (withTrace
                     (trace w1 ++
                      [AlertAlert "Incorrect PIN" "" [tryAgain CbInitPin]])
                     w1)).
  { intros Hne. exact (checkPin_mismatch w storedPin w1 E1 Hne). }
  assert (Hfa : pin (auth w) <> storedPin ->
            filter isAlert (emitted w o) =
              [AlertAlert "Incorrect PIN" "" [tryAgain CbInitPin]]).
  { intros Hne. rewrite (Hfail Hne).
    erewrite emitted_app
      by (cbn; rewrite Ht1, <- app_assoc; reflexivity).
    rewrite filter_app, (Hna _ Hev1). reflexivity. }
  assert (Hok : pin (auth w) = storedPin ->
            exists storedPass w2,
              _getFromKeyStore PASS w1 = Resolved storedPass w2 /\
              o = _unlockWallet w1 /\
              o = Resolved tt (worldOf o) /\
              password (wallet (worldOf o)) = storedPass /\
              emitted w2 o = [WalletCheckPassword storedPass] /\
              filter isAlert (emitted w o) = []).
  { intros He.
    destruct (getFromKeyStore_frame PASS w1)
      as (storedPass & w2 & evs2 & E2 & _ & _ & _ & _ & _ & Ht2 & Hev2).
    exists storedPass, w2. split; [exact E2|].
    assert (Eo : o = _unlockWallet w1)
      by exact (checkPin_match w storedPin w1 E1 He).
    split; [exact Eo|].
    rewrite Eo, (unlockWallet_resolved w1 storedPass w2 E2).
    cbn -[emitted]. repeat split.
    - apply emitted_app. reflexivity.
    - erewrite emitted_app
        by (cbn; rewrite Ht2, Ht1, <- !app_assoc; reflexivity).
      rewrite !filter_app, (Hna _ Hev1), (Hna _ Hev2). reflexivity. }
  split; [split|split].
  - intros Hal Heq. destruct (Hok Heq) as (? & ? & _ & _ & _ & _ & _ & Hn).
    contradiction.
  - intros Hne. rewrite (Hfa Hne). discriminate.
  - intros Hne. split; [|split; [exact (Hfa Hne)|]].
    + rewrite (Hfail Hne). reflexivity.
    + rewrite (Hfail Hne). cbn -[emitted]. repeat split.
      * apply emitted_app. reflexivity.
      * exact Hwal1.
      * apply emitted_app. reflexivity.
  - exact Hok.
Qed.

Lemma checkPin_outcome_witness :
  let w := lockedWorld "445566" true in
  let o := checkPin w in
  pin (auth w) = "445566" /\
  password (wallet (worldOf o)) = toString_hex (repeat "*"%byte 32) /\
  filter isAlert (emitted w o) = [].
Proof.
  split; [reflexivity|].
  destruct (checkPin_outcome (lockedWorld "445566" true))
    as (storedPin & w1 & E1 & _ & _ & Hok).
  vm_compute in E1. injection E1 as <- <-.
  destruct (Hok eq_refl) as (storedPass & w2 & E2 & _ & _ & Hp & _ & Hn).
  vm_compute in E2. injection E2 as <- <-.
  split; [exact Hp | exact Hn].
Defined.

(** ** Fingerprint *)

Lemma tryFingerprint_unavailable (w : World) :
  Fingerprint.hasHardwareAsync (fingerprint w) = false \/
  Fingerprint.isEnrolledAsync (fingerprint w) = false ->
  tryFingerprint w =
    Resolved tt
      (withTrace
         (trace w ++ [FingerprintHasHardware; FingerprintIsEnrolled]) w).
Proof.
  intros H.
  unfold Fingerprint.hasHardwareAsync, Fingerprint.isEnrolledAsync in H.
  run_action. cbn.
  destruct H as [-> | ->]; rewrite ?orb_true_r; cbn;
    unfold withTrace; cbn; now rewrite <- app_assoc.
Qed.

Lemma tryFingerprint_challenge (w : World) :
  Fingerprint.hasHardwareAsync (fingerprint w) = true ->
  Fingerprint.isEnrolledAsync (fingerprint w) = true ->
  let r := Fingerprint.authenticateAsync (fingerprint w) in
  let w1 :=
    withFingerprint (snd r)
      (withTrace
         (trace w ++
          [FingerprintHasHardware; FingerprintIsEnrolled;
           FingerprintAuthenticate "Unlock your Wallet"]) w) in
  tryFingerprint w =
    if Fingerprint.success (fst r) then _unlockWallet w1 else Resolved tt w1.
Proof.
  intros Hh He r w1. subst r w1.
  unfold tryFingerprint, Fingerprint_hasHardwareAsync,
    Fingerprint_isEnrolledAsync, Fingerprint_authenticateAsync,
    bind, emit, ret.
  cbn -[_unlockWallet Fingerprint.authenticateAsync].
  rewrite Hh, He. cbn -[_unlockWallet Fingerprint.authenticateAsync].
  destruct (Fingerprint.authenticateAsync (fingerprint w)) as [r d].
  cbn -[_unlockWallet].
  unfold withFingerprint, withTrace. cbn -[_unlockWallet].
  rewrite <- !app_assoc. cbn -[_unlockWallet].
  destruct (Fingerprint.success r); reflexivity.
Qed.

(** C9: [tryFingerprint] resolves silently, leaving the PIN inputs, the
    wallet state, both stores and the entropy pool as they were and calling
    nothing but the fingerprint reader, when the hardware is absent, when
    nothing is enrolled, or when the challenge does not succeed.  When the
    challenge succeeds it runs [_unlockWallet], which reads the stored
    wallet secret, places it in [wallet.password] and calls the wallet's
    [checkPassword]; [checkPin] on a matching PIN runs the same
    [_unlockWallet]. *)
Theorem tryFingerprint_outcome (w : World) :
  let d := fingerprint w in
  let r := Fingerprint.authenticateAsync d in
  let o := tryFingerprint w in
  (Fingerprint.hasHardwareAsync d = false \/
   Fingerprint.isEnrolledAsync d = false \/
   Fingerprint.success (fst r) = false ->
   o = Resolved tt (worldOf o) /\
   auth (worldOf o) = auth w /\
   wallet (worldOf o) = wallet w /\
   keychain (worldOf o) = keychain w /\
   secureStore (worldOf o) = secureStore w /\
   entropy (worldOf o) = entropy w /\
   forallb isFingerprintEvent (emitted w o) = true) /\
  (Fingerprint.hasHardwareAsync d = true ->
   Fingerprint.isEnrolledAsync d = true ->
   Fingerprint.success (fst r) = true ->
   let w1 :=
     withFingerprint (snd r)
       (withTrace
          (trace w ++
           [FingerprintHasHardware; FingerprintIsEnrolled;
            FingerprintAuthenticate "Unlock your Wallet"]) w) in
   o = _unlockWallet w1 /\
   exists storedPass w2,
     _getFromKeyStore PASS w1 = Resolved storedPass w2 /\
     o = Resolved tt (worldOf o) /\
     password (wallet (worldOf o)) = storedPass /\
     emitted w2 o = [WalletCheckPassword storedPass]) /\
  (forall (wp : World) (storedPin : string) (wp1 : World),
     _getFromKeyStore PIN wp = Resolved storedPin wp1 ->
     pin (auth wp) = storedPin ->
     checkPin wp = _unlockWallet wp1).
Proof.
  intros d r o. split; [|split].
  - intros H.
    destruct (Fingerprint.hasHardwareAsync d) eqn:Hh;
      [destruct (Fingerprint.isEnrolledAsync d) eqn:He|].
    + destruct H as [H | [H | H]]; try discriminate H.
      subst o. rewrite (tryFingerprint_challenge w Hh He).
      fold d. fold r. rewrite H. cbn -[emitted]. repeat split.
      erewrite emitted_app by reflexivity. reflexivity.
    + subst o. rewrite (tryFingerprint_unavailable w (or_intror He)).
      cbn -[emitted]. repeat split.
      erewrite emitted_app by reflexivity. reflexivity.
    + subst o. rewrite (tryFingerprint_unavailable w (or_introl Hh)).
      cbn -[emitted]. repeat split.
      erewrite emitted_app by reflexivity. reflexivity.
  - intros Hh He Hs w1.
    assert (Eo : o = _unlockWallet w1).
    { subst o. rewrite (tryFingerprint_challenge w Hh He).
      fold d. fold r. rewrite Hs. reflexivity. }
    split; [exact Eo|].
    destruct (getFromKeyStore_frame PASS w1)
      as (storedPass & w2 & evs2 & E2 & _).
    exists storedPass, w2. split; [exact E2|].
    rewrite Eo, (unlockWallet_resolved w1 storedPass w2 E2).
    cbn -[emitted]. repeat split.
    apply emitted_app. reflexivity.
  - intros wp storedPin wp1 E1 He. exact (checkPin_match wp storedPin wp1 E1 He).
Qed.

Lemma tryFingerprint_outcome_witness :
  let w := lockedWorld "" false in
  let w' := lockedWorld "" true in
  (wallet (worldOf (tryFingerprint w)) = wallet w /\
   auth (worldOf (tryFingerprint w)) = auth w) /\
  password (wallet (worldOf (tryFingerprint w'))) =
    toString_hex (repeat "*"%byte 32).
Proof.
  split.
  - destruct (tryFingerprint_outcome (lockedWorld "" false)) as (H & _).
    destruct H as (_ & Ha & Hw & _).
    + right. right. reflexivity.
    + split; [exact Hw | exact Ha].
  - destruct (tryFingerprint_outcome (lockedWorld "" true)) as (_ & H & _).
    destruct H as (_ & storedPass & w2 & E2 & _ & Hp & _);
      [reflexivity | reflexivity | reflexivity |].
    vm_compute in E2. injection E2 as <- <-. exact Hp.
Defined.

(** ** The PIN inputs *)

Lemma authGet_authSet (p q : PinParam) (v : string) (a : AuthStore) :
  authGet p (authSet q v a) = if decide (p = q) then v else authGet p a.
Proof. destruct p, q; reflexivity. Qed.

(** What the verifications and the unlock leave in [store.auth]. *)
Lemma generateWalletPassword_auth (w : World) :
  auth (worldOf (_generateWalletPassword w)) = auth w.
Proof.
  destruct (Nat.le_gt_cases 32 (length (entropy w))) as [H | H].
  - now rewrite (generateWalletPassword_resolved w H).
  - now rewrite (generateWalletPassword_rejected w H).
Qed.

Lemma checkNewPin_auth (L : nat) (w : World) :
  auth (worldOf (checkNewPin L w)) = auth w.
Proof.
  destruct (String.eqb_spec (newPin (auth w)) (pinVerify (auth w)))
    as [He | Hne];
    [destruct (Nat.eq_dec (String.length (newPin (auth w))) L)
       as [Hl | Hnl]|].
  - rewrite (checkNewPin_match L w He Hl).
    unfold bind at 1, _setToKeyStore, Keychain_setInternetCredentials,
      bind at 1, emit.
    cbn -[_generateWalletPassword].
    now rewrite generateWalletPassword_auth.
  - rewrite checkNewPin_mismatch by tauto. reflexivity.
  - rewrite checkNewPin_mismatch by tauto. reflexivity.
Qed.

Lemma unlockWallet_auth (w : World) :
  auth (worldOf (_unlockWallet w)) = auth w.
Proof.
  destruct (getFromKeyStore_frame PASS w)
    as (v & w1 & evs & E & Ha & _).
  rewrite (unlockWallet_resolved w v w1 E). exact Ha.
Qed.

Lemma checkPin_auth (w : World) : auth (worldOf (checkPin w)) = auth w.
Proof.
  destruct (getFromKeyStore_frame PIN w)
    as (v & w1 & evs & E & Ha & _).
  destruct (String.eqb_spec (pin (auth w)) v) as [He | Hne].
  - rewrite (checkPin_match w v w1 E He).
    now rewrite unlockWallet_auth.
  - rewrite (checkPin_mismatch w v w1 E Hne). exact Ha.
Qed.

Lemma tryFingerprint_auth (w : World) :
  auth (worldOf (tryFingerprint w)) = auth w.
Proof.
  destruct (Fingerprint.hasHardwareAsync (fingerprint w)) eqn:Hh;
    [destruct (Fingerprint.isEnrolledAsync (fingerprint w)) eqn:He|].
  - rewrite (tryFingerprint_challenge w Hh He).
    destruct (Fingerprint.success _).
    + now rewrite unlockWallet_auth.
    + reflexivity.
  - now rewrite (tryFingerprint_unavailable w (or_intror He)).
  - now rewrite (tryFingerprint_unavailable w (or_introl Hh)).
Qed.

Lemma detach_auth (m : Action unit) (w : World) :
  auth (worldOf (detach m w)) = auth (worldOf (m w)).
Proof. unfold detach. destruct (m w); reflexivity. Qed.

(** A push on a field that is not shorter than [L] goes straight to the
    dispatch on the field's name. *)
Lemma pushPinDigit_full (L : nat) (digit : string) (param : PinParam)
    (w : World) :
  (L <= String.length (authGet param (auth w)))%nat ->
  pushPinDigit L digit param w =
    match param with
    | ParamNewPin => nav_goSetPasswordConfirm w
    | ParamPinVerify => detach (checkNewPin L) w
    | ParamPin => detach checkPin w
    end.
Proof.
  intros H. apply Nat.ltb_ge in H.
  unfold pushPinDigit, readAuth, bind, ret.
  rewrite H. rewrite H. destruct param; reflexivity.
Qed.

(** A push on a shorter field appends the digit, and dispatches when the
    field is no longer shorter than [L]. *)
Lemma pushPinDigit_append (L : nat) (digit : string) (param : PinParam)
    (w : World) :
  (String.length (authGet param (auth w)) < L)%nat ->
  let w1 :=
    withAuth (authSet param (authGet param (auth w) ++ digit) (auth w)) w in
  pushPinDigit L digit param w =
    if Nat.ltb (String.length (authGet param (auth w) ++ digit)) L
    then Resolved tt w1
    else
      match param with
      | ParamNewPin => nav_goSetPasswordConfirm w1
      | ParamPinVerify => detach (checkNewPin L) w1
      | ParamPin => detach checkPin w1
      end.
Proof.
  intros H w1. apply Nat.ltb_lt in H.
  unfold pushPinDigit, readAuth, writeAuth, bind, ret.
  rewrite H. fold w1.
  replace (authGet param (auth w1))
    with (authGet param (auth w) ++ digit)
    by (subst w1; destruct param; reflexivity).
  clear H.
  destruct (Nat.ltb (String.length (authGet param (auth w) ++ digit)) L);
    [reflexivity|].
  destruct param; reflexivity.
Qed.

Lemma dispatch_auth (L : nat) (param : PinParam) (w : World) :
  auth
    (worldOf
       match param with
       | ParamNewPin => nav_goSetPasswordConfirm w
       | ParamPinVerify => detach (checkNewPin L) w
       | ParamPin => detach checkPin w
       end) = auth w.
Proof.
  destruct param.
  - reflexivity.
  - now rewrite detach_auth, checkNewPin_auth.
  - now rewrite detach_auth, checkPin_auth.
Qed.

Lemma pushPinDigit_auth (L : nat) (digit : string) (param : PinParam)
    (w : World) :
  auth (worldOf (pushPinDigit L digit param w)) =
    if Nat.ltb (String.length (authGet param (auth w))) L
    then authSet param (authGet param (auth w) ++ digit) (auth w)
    else auth w.
Proof.
  destruct (Nat.ltb _ L) eqn:Hlt.
  - apply Nat.ltb_lt in Hlt.
    rewrite (pushPinDigit_append L digit param w Hlt).
    destruct (Nat.ltb (String.length (authGet param (auth w) ++ digit)) L);
      [reflexivity|].
    now rewrite dispatch_auth.
  - apply Nat.ltb_ge in Hlt.
    rewrite (pushPinDigit_full L digit param w Hlt).
    apply dispatch_auth.
Qed.

Lemma popPinDigit_nonempty (param : PinParam) (w : World) :
  authGet param (auth w) <> "" ->
  popPinDigit param w =
    Resolved tt
      (withAuth (authSet param (slice_0_m1 (authGet param (auth w))) (auth w))
         w).
Proof.
  intros H. apply truthy_true in H.
  unfold popPinDigit, readAuth, writeAuth, bind. now rewrite H.
Qed.

Lemma popPinDigit_empty (param : PinParam) (w : World) :
  authGet param (auth w) = "" ->
  popPinDigit param w =
    match param with
    | ParamPinVerify => initSetPin w
    | _ => Resolved tt w
    end.
Proof.
  intros H. apply truthy_false in H.
  unfold popPinDigit, readAuth, bind at 1. rewrite H.
  destruct param; reflexivity.
Qed.

Lemma length_slice_0_m1 (s : string) :
  (String.length (slice_0_m1 s) <= String.length s)%nat.
Proof.
  destruct (String.eqb_spec s "") as [-> | Hne]; [simpl; lia|].
  destruct (nonempty_snoc s Hne) as (r & c & ->).
  rewrite slice_0_m1_snoc, length_append. lia.
Qed.

(** C7 (amended): for every PIN field already at length [L], [pushPinDigit]
    drops the digit and leaves every PIN input unchanged, and then runs the
    step that follows a filled field, as it does when the field has just
    reached length [L]: [goSetPasswordConfirm] for [newPin], [checkNewPin]
    for [pinVerify], [checkPin] for [pin]. *)
Theorem pushPinDigit_at_full_length (L : nat) (digit : string)
    (param : PinParam) (w : World) :
  String.length (authGet param (auth w)) = L ->
  let o := pushPinDigit L digit param w in
  auth (worldOf o) = auth w /\
  o = match param with
      | ParamNewPin => nav_goSetPasswordConfirm w
      | ParamPinVerify => detach (checkNewPin L) w
      | ParamPin => detach checkPin w
      end /\
  (param = ParamNewPin -> emitted w o = [NavGoSetPasswordConfirm]).
Proof.
  intros Hlen o.
  assert (Hfull : (L <= String.length (authGet param (auth w)))%nat) by lia.
  assert (Eo := pushPinDigit_full L digit param w Hfull). fold o in Eo.
  split; [|split].
  - rewrite Eo. apply dispatch_auth.
  - exact Eo.
  - intros ->. rewrite Eo. apply emitted_app. reflexivity.
Qed.

Lemma pushPinDigit_at_full_length_witness :
  let w :=
    withAuth {| newPin := "123456"; pinVerify := ""; pin := "" |}
      (freshWorld 32) in
  let o := pushPinDigit 6 "7" ParamNewPin w in
  String.length (authGet ParamNewPin (auth w)) = 6%nat /\
  auth (worldOf o) = auth w /\
  o = nav_goSetPasswordConfirm w /\
  (ParamNewPin = ParamNewPin -> emitted w o = [NavGoSetPasswordConfirm]).
Proof.
  split; [reflexivity|].
  apply (pushPinDigit_at_full_length 6 "7" ParamNewPin
           (withAuth {| newPin := "123456"; pinVerify := ""; pin := "" |}
              (freshWorld 32))).
  reflexivity.
Defined.

(** C7, as stated, fails: on a [newPin] of six digits with [L] = 6 a seventh
    digit is dropped, but the navigation to the confirmation view is
    triggered again; on a full [pinVerify] equal to [newPin] the
    verification runs again and writes to the secure store. *)
Lemma pushPinDigit_full_still_dispatches :
  let w :=
    withAuth {| newPin := "123456"; pinVerify := ""; pin := "" |}
      (freshWorld 32) in
  let o := pushPinDigit 6 "7" ParamNewPin w in
  let w' :=
    withAuth {| newPin := "123456"; pinVerify := "123456"; pin := "" |}
      (freshWorld 32) in
  let o' := pushPinDigit 6 "7" ParamPinVerify w' in
  String.length (newPin (auth w)) = 6%nat /\
  newPin (auth (worldOf o)) = "123456" /\
  emitted w o = [NavGoSetPasswordConfirm] /\
  ~ filter isNav (emitted w o) = [] /\
  String.length (pinVerify (auth w')) = 6%nat /\
  ~ filter isKeychainSet (emitted w' o') = [].
Proof.
  repeat split; vm_compute; discriminate.
Qed.

(** C8: on a non-empty field [popPinDigit] removes exactly the last
    character of that field and changes nothing else; on an empty
    [pinVerify] it runs [initSetPin], which leaves [newPin] and [pinVerify]
    empty and navigates to the PIN creation view. *)
Theorem popPinDigit_outcome (param : PinParam) (w : World) :
  let a := auth w in
  let o := popPinDigit param w in
  (authGet param a <> "" ->
   exists rest c,
     authGet param a = rest ++ String c "" /\
     o = Resolved tt (withAuth (authSet param rest a) w)) /\
  (param = ParamPinVerify ->
   pinVerify a = "" ->
   o = initSetPin w /\
   o = Resolved tt (worldOf o) /\
   newPin (auth (worldOf o)) = "" /\
   pinVerify (auth (worldOf o)) = "" /\
   pin (auth (worldOf o)) = pin a /\
   emitted w o = [NavGoSetPassword]).
Proof.
  intros a o. split.
  - intros Hne. destruct (nonempty_snoc _ Hne) as (rest & c & Hs).
    exists rest, c. split; [exact Hs|].
    subst o. rewrite (popPinDigit_nonempty param w Hne).
    fold a. rewrite Hs, slice_0_m1_snoc. reflexivity.
  - intros -> Hempty.
    assert (Eo : o = initSetPin w)
      by exact (popPinDigit_empty ParamPinVerify w Hempty).
    rewrite Eo. cbn -[emitted]. repeat split.
    apply emitted_app. reflexivity.
Qed.

Lemma popPinDigit_outcome_witness :
  let w :=
    withAuth {| newPin := "123456"; pinVerify := ""; pin := "" |}
      (freshWorld 32) in
  (exists rest c,
     authGet ParamNewPin (auth w) = rest ++ String c "" /\
     popPinDigit ParamNewPin w =
       Resolved tt (withAuth (authSet ParamNewPin rest (auth w)) w)) /\
  newPin (auth (worldOf (popPinDigit ParamPinVerify w))) = "" /\
  pinVerify (auth (worldOf (popPinDigit ParamPinVerify w))) = "".
Proof.
  split.
  - apply (popPinDigit_outcome ParamNewPin
             (withAuth {| newPin := "123456"; pinVerify := ""; pin := "" |}
                (freshWorld 32))).
    discriminate.
  - destruct (popPinDigit_outcome ParamPinVerify
                (withAuth {| newPin := "123456"; pinVerify := ""; pin := "" |}
                   (freshWorld 32))) as (_ & H).
    destruct (H eq_refl eq_refl) as (_ & _ & Hn & Hv & _).
    split; [exact Hn | exact Hv].
Defined.

(** ** The length bound *)

Lemma initSetPin_auth (w : World) :
  auth (worldOf (initSetPin w)) =
    {| newPin := ""; pinVerify := ""; pin := pin (auth w) |}.
Proof. reflexivity. Qed.

Lemma initPin_auth (w : World) :
  auth (worldOf (initPin w)) =
    {| newPin := newPin (auth w); pinVerify := pinVerify (auth w);
       pin := "" |}.
Proof. reflexivity. Qed.

Lemma pushPinDigit_bounded (L : nat) (digit : string) (q p : PinParam)
    (w : World) :
  String.length digit = 1%nat ->
  pinBounded L p w ->
  pinBounded L p (worldOf (pushPinDigit L digit q w)).
Proof.
  unfold pinBounded. intros Hd Hb. rewrite pushPinDigit_auth.
  destruct (Nat.ltb _ L) eqn:Hlt; [|exact Hb].
  apply Nat.ltb_lt in Hlt. rewrite authGet_authSet.
  destruct (decide (p = q)) as [-> | _]; [|exact Hb].
  rewrite length_append, Hd. lia.
Qed.

Lemma popPinDigit_bounded (L : nat) (q p : PinParam) (w : World) :
  pinBounded L p w -> pinBounded L p (worldOf (popPinDigit q w)).
Proof.
  unfold pinBounded. intros Hb.
  destruct (String.eqb_spec (authGet q (auth w)) "") as [He | Hne].
  - rewrite (popPinDigit_empty q w He).
    destruct q; try exact Hb.
    rewrite initSetPin_auth. destruct p; simpl; solve [lia | exact Hb].
  - rewrite (popPinDigit_nonempty q w Hne). cbn [worldOf withAuth auth].
    rewrite authGet_authSet.
    destruct (decide (p = q)) as [-> | _]; [|exact Hb].
    pose proof (length_slice_0_m1 (authGet q (auth w))). lia.
Qed.

Lemma runOp_bounded (L : nat) (p : PinParam) (op : Op) (w : World) :
  singleDigit op ->
  pinBounded L p w ->
  pinBounded L p (worldOf (runOp L op w)).
Proof.
  intros Hd Hb. destruct op as [| |digit q|q| | |]; cbn [runOp].
  - unfold pinBounded. rewrite initSetPin_auth.
    destruct p; simpl; solve [lia | exact Hb].
  - unfold pinBounded. rewrite initPin_auth.
    destruct p; simpl; solve [lia | exact Hb].
  - now apply pushPinDigit_bounded.
  - now apply popPinDigit_bounded.
  - unfold pinBounded. now rewrite checkNewPin_auth.
  - unfold pinBounded. now rewrite checkPin_auth.
  - unfold pinBounded. now rewrite tryFingerprint_auth.
Qed.

Lemma statesAlong_bounded (L : nat) (p : PinParam) (ops : list Op) :
  Forall singleDigit ops ->
  forall w, pinBounded L p w -> Forall (pinBounded L p) (statesAlong L ops w).
Proof.
  induction 1 as [|op ops Hop _ IH]; intros w Hb; cbn [statesAlong].
  - constructor; [exact Hb | constructor].
  - constructor; [exact Hb|]. apply IH. now apply runOp_bounded.
Qed.

(** C6: the bound "the field is at most [L] characters long" is preserved
    by every operation of the controller ([initSetPin], [initPin],
    [pushPinDigit] with a one-character digit, [popPinDigit], [checkNewPin],
    [checkPin], [tryFingerprint]), for each PIN field; so along every
    sequence of operations, pushes and pops on any field among them, a field
    that starts empty never holds more than [L] characters. *)
Theorem pin_length_never_exceeds (L : nat) (p : PinParam) :
  (forall (op : Op) (w : World),
     singleDigit op ->
     pinBounded L p w ->
     pinBounded L p (worldOf (runOp L op w))) /\
  (forall (ops : list Op) (w : World),
     authGet p (auth w) = "" ->
     Forall singleDigit ops ->
     Forall (fun w' => (String.length (authGet p (auth w')) <= L)%nat)
       (statesAlong L ops w)).
Proof.
  split.
  - intros op w. apply runOp_bounded.
  - intros ops w Hempty Hops.
    apply (statesAlong_bounded L p ops Hops w).
    unfold pinBounded. rewrite Hempty. simpl. lia.
Qed.

Lemma pin_length_never_exceeds_witness :
  let ops :=
    [OpPushPinDigit "1" ParamNewPin; OpPushPinDigit "2" ParamNewPin;
     OpPushPinDigit "3" ParamNewPin; OpPopPinDigit ParamNewPin;
     OpPushPinDigit "4" ParamNewPin; OpPushPinDigit "5" ParamNewPin] in
  authGet ParamNewPin (auth (freshWorld 32)) = "" /\
  Forall singleDigit ops /\
  Forall
    (fun w' => (String.length (authGet ParamNewPin (auth w')) <= 2)%nat)
    (statesAlong 2 ops (freshWorld 32)).
Proof.
  assert (Hops :
    Forall singleDigit
      [OpPushPinDigit "1" ParamNewPin; OpPushPinDigit "2" ParamNewPin;
       OpPushPinDigit "3" ParamNewPin; OpPopPinDigit ParamNewPin;
       OpPushPinDigit "4" ParamNewPin; OpPushPinDigit "5" ParamNewPin]).
  { repeat constructor. }
  split; [reflexivity|]. split; [exact Hops|].
  apply (proj2 (pin_length_never_exceeds 2 ParamNewPin)).
  - reflexivity.
  - exact Hops.
Defined.

(** ** Typing a PIN *)

Lemma append_empty_r (s : string) : s ++ "" = s.
Proof.
  induction s as [|c s IH]; [reflexivity|].
  change (String c (s ++ "") = String c s). now rewrite IH.
Qed.

Lemma append_assoc (s t u : string) : (s ++ t) ++ u = s ++ (t ++ u).
Proof.
  induction s as [|c s IH]; [reflexivity|].
  change (String c ((s ++ t) ++ u) = String c (s ++ (t ++ u))).
  now rewrite IH.
Qed.

Lemma concat_cons (d : string) (ds : list string) :
  String.concat "" (d :: ds) = d ++ String.concat "" ds.
Proof.
  destruct ds as [|e ds]; [|reflexivity].
  symmetry. exact (append_empty_r d).
Qed.

Lemma concat_snoc (ds : list string) (d : string) :
  String.concat "" (ds ++ [d]) = String.concat "" ds ++ d.
Proof.
  induction ds as [|e ds IH].
  - reflexivity.
  - change ((e :: ds) ++ [d])%list with (e :: (ds ++ [d]))%list.
    now rewrite !concat_cons, IH, append_assoc.
Qed.

Lemma length_concat_oneChar (ds : list string) :
  Forall oneChar ds -> String.length (String.concat "" ds) = length ds.
Proof.
  induction 1 as [|d ds Hd _ IH]; [reflexivity|].
  rewrite concat_cons, length_append, IH, Hd. reflexivity.
Qed.

Lemma authSet_authSet (p : PinParam) (u v : string) (a : AuthStore) :
  authSet p v (authSet p u a) = authSet p v a.
Proof. destruct p; reflexivity. Qed.

Lemma authSet_authGet (p : PinParam) (a : AuthStore) :
  authSet p (authGet p a) a = a.
Proof. destruct p, a; reflexivity. Qed.

Lemma withAuth_id (w : World) : withAuth (auth w) w = w.
Proof. destruct w; reflexivity. Qed.

Lemma runOps_app (L : nat) (ops ops' : list Op) (w : World) :
  runOps L (ops ++ ops') w = runOps L ops' (runOps L ops w).
Proof. unfold runOps. apply fold_left_app. Qed.

Lemma typeDigits_snoc (p : PinParam) (ds : list string) (d : string) :
  typeDigits p (ds ++ [d]) = (typeDigits p ds ++ [OpPushPinDigit d p])%list.
Proof. unfold typeDigits. now rewrite map_app. Qed.

(** X2: while the field stays shorter than [L], typing only appends: after
    the digits [ds] the field holds its old content followed by the digits,
    in order, and nothing else in the world has changed; no collaborator
    was called. *)
Theorem typing_below_length_only_appends (L : nat) (p : PinParam)
    (ds : list string) (w : World) :
  Forall oneChar ds ->
  (String.length (authGet p (auth w)) + length ds < L)%nat ->
  runOps L (typeDigits p ds) w =
    withAuth (authSet p (authGet p (auth w) ++ String.concat "" ds) (auth w)) w.
Proof.
  intros Hds. revert w.
  induction Hds as [|d ds Hd _ IH]; intros w Hlen.
  - cbn. now rewrite append_empty_r, authSet_authGet, withAuth_id.
  - cbn [length] in Hlen.
    change (runOps L (typeDigits p (d :: ds)) w)
      with (runOps L (typeDigits p ds)
              (worldOf (pushPinDigit L d p w))).
    rewrite (pushPinDigit_append L d p w) by lia.
    assert (Hlt : Nat.ltb (String.length (authGet p (auth w) ++ d)) L = true).
    { apply Nat.ltb_lt. rewrite length_append, Hd. lia. }
    rewrite Hlt. cbn [worldOf].
    rewrite IH.
    + cbn [auth withAuth]. rewrite authGet_authSet.
      destruct (decide (p = p)) as [_|Hn]; [|contradiction].
      rewrite authSet_authSet, append_assoc, concat_cons.
      reflexivity.
    + cbn [auth withAuth]. rewrite authGet_authSet.
      destruct (decide (p = p)) as [_|Hn]; [|contradiction].
      rewrite length_append, Hd. lia.
Qed.

Lemma typing_below_length_only_appends_witness :
  runOps 6 (typeDigits ParamPin ["4"; "4"; "5"]) (freshWorld 0) =
    withAuth {| newPin := ""; pinVerify := ""; pin := "445" |} (freshWorld 0).
Proof.
  apply (typing_below_length_only_appends 6 ParamPin ["4"; "4"; "5"]
           (freshWorld 0)).
  - repeat constructor.
  - simpl. lia.
Defined.

(** Typing the digit that fills the field: the field takes the digit and
    the step for a filled field runs, once. *)
Lemma pushPinDigit_fills (L : nat) (d : string) (p : PinParam) (w : World) :
  oneChar d ->
  S (String.length (authGet p (auth w))) = L ->
  pushPinDigit L d p w =
    let w1 := withAuth (authSet p (authGet p (auth w) ++ d) (auth w)) w in
    match p with
    | ParamNewPin => nav_goSetPasswordConfirm w1
    | ParamPinVerify => detach (checkNewPin L) w1
    | ParamPin => detach checkPin w1
    end.
Proof.
  intros Hd Hl.
  rewrite (pushPinDigit_append L d p w) by lia.
  assert (Hge : Nat.ltb (String.length (authGet p (auth w) ++ d)) L = false).
  { apply Nat.ltb_ge. rewrite length_append, Hd. lia. }
  now rewrite Hge.
Qed.

(** X3: typing [L] one-character digits into an empty field fills it with
    those digits and runs the step for a filled field exactly once, on the
    last digit: [goSetPasswordConfirm] for [newPin], [checkNewPin] for
    [pinVerify], [checkPin] for [pin]. *)
Theorem typing_full_pin_dispatches_once (L : nat) (p : PinParam)
    (ds : list string) (w : World) :
  Forall oneChar ds ->
  ds <> [] ->
  length ds = L ->
  authGet p (auth w) = "" ->
  let w1 := withAuth (authSet p (String.concat "" ds) (auth w)) w in
  runOps L (typeDigits p ds) w =
    worldOf
      match p with
      | ParamNewPin => nav_goSetPasswordConfirm w1
      | ParamPinVerify => detach (checkNewPin L) w1
      | ParamPin => detach checkPin w1
      end.
Proof.
  intros Hds Hne Hlen Hempty w1.
  destruct (exists_last Hne) as (ds' & d & ->).
  apply Forall_app in Hds as [Hds' Hd].
  apply Forall_inv in Hd.
  rewrite length_app in Hlen. cbn [length] in Hlen.
  rewrite typeDigits_snoc, runOps_app.
  rewrite (typing_below_length_only_appends L p ds' w Hds')
    by (rewrite Hempty; simpl; lia).
  rewrite Hempty.
  change ("" ++ String.concat "" ds') with (String.concat "" ds').
  change (runOps L [OpPushPinDigit d p] ?x)
    with (worldOf (pushPinDigit L d p x)).
  set (w0 := withAuth (authSet p (String.concat "" ds') (auth w)) w).
  assert (Hf : authGet p (auth w0) = String.concat "" ds').
  { subst w0. cbn [auth withAuth]. rewrite authGet_authSet.
    destruct (decide (p = p)); [reflexivity | contradiction]. }
  rewrite (pushPinDigit_fills L d p w0 Hd)
    by (rewrite Hf, (length_concat_oneChar ds' Hds'); lia).
  cbn zeta. rewrite Hf.
  replace (withAuth (authSet p (String.concat "" ds' ++ d) (auth w0)) w0) with w1.
  - reflexivity.
  - subst w1 w0. cbn [auth withAuth]. rewrite authSet_authSet, concat_snoc.
    reflexivity.
Qed.

Lemma typing_full_pin_dispatches_once_witness :
  runOps 3 (typeDigits ParamNewPin ["1"; "2"; "3"]) (freshWorld 0) =
    withTrace [NavGoSetPasswordConfirm]
      (withAuth {| newPin := "123"; pinVerify := ""; pin := "" |}
         (freshWorld 0)).
Proof.
  apply (typing_full_pin_dispatches_once 3 ParamNewPin ["1"; "2"; "3"]
           (freshWorld 0)).
  - repeat constructor.
  - discriminate.
  - reflexivity.
  - reflexivity.
Defined.

Lemma oneChar_inv (d : string) : oneChar d -> exists c, d = String c "".
Proof.
  destruct d as [|c [|c' d']]; intros H; try discriminate H.
  now exists c.
Qed.

(** X1: deleting after typing gives back what was there: on a field shorter
    than [L], [pushPinDigit] with a one-character digit followed by
    [popPinDigit] on the same field leaves the three PIN inputs exactly as
    they were before the digit. *)
Theorem pop_undoes_push (L : nat) (d : string) (p : PinParam) (w : World) :
  oneChar d ->
  (String.length (authGet p (auth w)) < L)%nat ->
  auth (worldOf (popPinDigit p (worldOf (pushPinDigit L d p w)))) = auth w.
Proof.
  intros Hd Hlt. destruct (oneChar_inv d Hd) as (c & ->).
  set (w' := worldOf (pushPinDigit L (String c "") p w)).
  assert (Ha : auth w' =
               authSet p (authGet p (auth w) ++ String c "") (auth w)).
  { subst w'. rewrite pushPinDigit_auth.
    apply Nat.ltb_lt in Hlt. now rewrite Hlt. }
  assert (Hf : authGet p (auth w') = authGet p (auth w) ++ String c "").
  { rewrite Ha, authGet_authSet.
    destruct (decide (p = p)); [reflexivity | contradiction]. }
  rewrite popPinDigit_nonempty.
  - cbn [worldOf auth withAuth].
    rewrite Hf, slice_0_m1_snoc, Ha, authSet_authSet.
    apply authSet_authGet.
  - rewrite Hf. intros He.
    apply (f_equal String.length) in He.
    rewrite length_append in He. simpl in He. lia.
Qed.

Lemma pop_undoes_push_witness :
  let w := withAuth {| newPin := "12345"; pinVerify := ""; pin := "" |}
             (freshWorld 0) in
  auth (worldOf (popPinDigit ParamNewPin
                   (worldOf (pushPinDigit 6 "6" ParamNewPin w)))) = auth w.
Proof.
  apply (pop_undoes_push 6 "6" ParamNewPin
           (withAuth {| newPin := "12345"; pinVerify := ""; pin := "" |}
              (freshWorld 0))).
  - reflexivity.
  - simpl. lia.
Defined.

(** ** Setting a PIN, from the first key to the stored secret *)

(** The world a successful [checkNewPin] leaves. *)
Lemma checkNewPin_resolved (L : nat) (w : World) :
  newPin (auth w) = pinVerify (auth w) ->
  String.length (newPin (auth w)) = L ->
  (32 <= length (entropy w))%nat ->
  let secret := toString_hex (take 32 (entropy w)) in
  checkNewPin L w =
    Resolved tt
      {| auth := auth w;
         wallet := {| newPassword := secret; passwordVerify := secret;
                      password := password (wallet w) |};
         keychain :=
           <["0_WalletPassword" :=
               {| Keychain.username := ""; Keychain.password := secret |}]>
             (<["0_DevicePin" :=
                  {| Keychain.username := "";
                     Keychain.password := newPin (auth w) |}]>
                (keychain w));
         secureStore := secureStore w;
         fingerprint := fingerprint w;
         entropy := drop 32 (entropy w);
         trace :=
           trace w ++
           [KeychainSet "0_DevicePin" "" (newPin (auth w))
              Keychain.WHEN_UNLOCKED_THIS_DEVICE_ONLY;
            RandomBytesCall 32;
            KeychainSet "0_WalletPassword" "" secret
              Keychain.WHEN_UNLOCKED_THIS_DEVICE_ONLY;
            WalletCheckNewPassword secret secret] |}.
Proof.
  intros He Hl Hen secret.
  rewrite (checkNewPin_match L w He Hl).
  unfold bind at 1, _setToKeyStore, Keychain_setInternetCredentials,
    bind at 1, emit.
  cbn -[_generateWalletPassword].
  match goal with |- context [_generateWalletPassword ?w1] =>
    set (w1' := w1) end.
  assert (Hen' : (32 <= length (entropy w1'))%nat) by exact Hen.
  rewrite (generateWalletPassword_resolved w1' Hen').
  change (entropy w1') with (entropy w). fold secret.
  cbn -[take drop toString_hex secret].
  rewrite <- app_assoc. reflexivity.
Qed.

(** The world a PIN typed into [newPin] and then into [pinVerify] leaves in
    front of [checkNewPin]. *)
Lemma typing_both_pins (L : nat) (ds es : list string) (w : World) :
  Forall oneChar ds -> Forall oneChar es ->
  ds <> [] -> length ds = L -> length es = L ->
  newPin (auth w) = "" -> pinVerify (auth w) = "" ->
  runOps L (typeDigits ParamNewPin ds ++ typeDigits ParamPinVerify es) w =
    worldOf
      (detach (checkNewPin L)
         (withTrace (trace w ++ [NavGoSetPasswordConfirm])
            (withAuth
               {| newPin := String.concat "" ds;
                  pinVerify := String.concat "" es;
                  pin := pin (auth w) |} w))).
Proof.
  intros Hds Hes Hne Hl Hl' Hn Hv.
  assert (Hne' : es <> []).
  { intros ->. destruct ds; [contradiction | simpl in *; lia]. }
  rewrite runOps_app.
  rewrite (typing_full_pin_dispatches_once L ParamNewPin ds w Hds Hne Hl Hn).
  cbn [worldOf nav_goSetPasswordConfirm emit].
  rewrite (typing_full_pin_dispatches_once L ParamPinVerify es _ Hes Hne' Hl')
    by exact Hv.
  reflexivity.
Qed.

(** X4: the whole set-PIN flow.  Starting with both inputs empty, typing the
    same [L] one-character digits into [newPin] and then into [pinVerify],
    with the random source serving 32 bytes, navigates once to the
    confirmation view, stores the typed PIN under "0_DevicePin" and the new
    secret under "0_WalletPassword", mirrors the secret into
    [wallet.newPassword] and [wallet.passwordVerify] and calls the wallet,
    in that order, with no alert. *)
Theorem set_pin_flow_stores_pin_and_secret (L : nat) (ds : list string)
    (w : World) :
  Forall oneChar ds ->
  ds <> [] ->
  length ds = L ->
  newPin (auth w) = "" ->
  pinVerify (auth w) = "" ->
  (32 <= length (entropy w))%nat ->
  let typed := String.concat "" ds in
  let secret := toString_hex (take 32 (entropy w)) in
  let w' :=
    runOps L (typeDigits ParamNewPin ds ++ typeDigits ParamPinVerify ds) w in
  keychain w' !! "0_DevicePin" =
    Some {| Keychain.username := ""; Keychain.password := typed |} /\
  keychain w' !! "0_WalletPassword" =
    Some {| Keychain.username := ""; Keychain.password := secret |} /\
  newPassword (wallet w') = secret /\
  passwordVerify (wallet w') = secret /\
  trace w' =
    (trace w ++
     [NavGoSetPasswordConfirm;
      KeychainSet "0_DevicePin" "" typed
        Keychain.WHEN_UNLOCKED_THIS_DEVICE_ONLY;
      RandomBytesCall 32;
      KeychainSet "0_WalletPassword" "" secret
        Keychain.WHEN_UNLOCKED_THIS_DEVICE_ONLY;
      WalletCheckNewPassword secret secret])%list.
Proof.
  intros Hds Hne Hl Hn Hv Hen typed secret w'. subst w'.
  rewrite (typing_both_pins L ds ds w Hds Hds Hne Hl Hl Hn Hv).
  unfold detach.
  rewrite checkNewPin_resolved.
  - cbn -[take drop toString_hex]. fold typed. fold secret.
    repeat split.
    + rewrite lookup_insert_ne by discriminate. apply lookup_insert_eq.
    + apply lookup_insert_eq.
    + rewrite <- app_assoc. reflexivity.
  - reflexivity.
  - cbn. fold typed. subst typed.
    rewrite (length_concat_oneChar ds Hds). exact Hl.
  - exact Hen.
Qed.

Lemma set_pin_flow_stores_pin_and_secret_witness :
  let w' :=
    runOps 4
      (typeDigits ParamNewPin ["1"; "2"; "3"; "4"] ++
       typeDigits ParamPinVerify ["1"; "2"; "3"; "4"]) (freshWorld 32) in
  keychain w' !! "0_DevicePin" =
    Some {| Keychain.username := ""; Keychain.password := "1234" |} /\
  newPassword (wallet w') = toString_hex (repeat "*"%byte 32).
Proof.
  destruct (set_pin_flow_stores_pin_and_secret 4 ["1"; "2"; "3"; "4"]
              (freshWorld 32)) as (Hp & _ & Hs & _).
  - repeat constructor.
  - discriminate.
  - reflexivity.
  - reflexivity.
  - reflexivity.
  - simpl. lia.
  - split; [exact Hp | exact Hs].
Defined.

(** X5: the set-PIN flow with a typo.  When the [L] digits typed into
    [pinVerify] differ from those typed into [newPin], the flow navigates
    once to the confirmation view and shows exactly one alert; nothing is
    written to the secure store, no random bytes are drawn and the wallet is
    not called; pressing TRY AGAIN then empties both inputs. *)
Theorem set_pin_flow_typo_stores_nothing (L : nat) (ds es : list string)
    (w : World) :
  Forall oneChar ds -> Forall oneChar es ->
  ds <> [] ->
  length ds = L -> length es = L ->
  String.concat "" ds <> String.concat "" es ->
  newPin (auth w) = "" ->
  pinVerify (auth w) = "" ->
  let w' :=
    runOps L (typeDigits ParamNewPin ds ++ typeDigits ParamPinVerify es) w in
  trace w' =
    (trace w ++
     [NavGoSetPasswordConfirm;
      AlertAlert "PINs don't match" "" [tryAgain CbInitSetPin]])%list /\
  keychain w' = keychain w /\
  wallet w' = wallet w /\
  entropy w' = entropy w /\
  let w'' := worldOf (pressButton (tryAgain CbInitSetPin) w') in
  newPin (auth w'') = "" /\ pinVerify (auth w'') = "".
Proof.
  intros Hds Hes Hne Hl Hl' Hdiff Hn Hv w'. subst w'.
  rewrite (typing_both_pins L ds es w Hds Hes Hne Hl Hl' Hn Hv).
  unfold detach.
  rewrite checkNewPin_mismatch by (cbn; tauto).
  cbn. repeat split. now rewrite <- app_assoc.
Qed.

Lemma set_pin_flow_typo_stores_nothing_witness :
  let w' :=
    runOps 3
      (typeDigits ParamNewPin ["1"; "2"; "3"] ++
       typeDigits ParamPinVerify ["1"; "2"; "4"]) (freshWorld 32) in
  trace w' =
    [NavGoSetPasswordConfirm;
     AlertAlert "PINs don't match" "" [tryAgain CbInitSetPin]] /\
  keychain w' = keychain (freshWorld 32).
Proof.
  destruct (set_pin_flow_typo_stores_nothing 3 ["1"; "2"; "3"]
              ["1"; "2"; "4"] (freshWorld 32)) as (Ht & Hk & _).
  - repeat constructor.
  - repeat constructor.
  - discriminate.
  - reflexivity.
  - reflexivity.
  - discriminate.
  - reflexivity.
  - reflexivity.
  - split; [exact Ht | exact Hk].
Defined.

(** ** Reading and writing the key store *)

Lemma versionedKey_inj (key key' : string) :
  versionedKey key = versionedKey key' -> key = key'.
Proof. intros H. now injection H. Qed.

(** The value a read resolves with: the current store first, then the
    legacy store, then the empty string. *)
Lemma getFromKeyStore_value (key : string) (w : World) :
  valueOf (_getFromKeyStore key w) =
    Some
      match keychain w !! versionedKey key with
      | Some c => Keychain.password c
      | None =>
          match secureStore w !! key with
          | Some v => v
          | None => ""
          end
      end.
Proof.
  destruct (keychain w !! versionedKey key) as [c|] eqn:Hk.
  - now rewrite (getFromKeyStore_hit key c w Hk).
  - destruct (secureStore w !! key) as [v|] eqn:Hs.
    + destruct (String.eqb_spec v "") as [-> | Hv].
      * now rewrite (getFromKeyStore_miss key w Hk (or_intror Hs)).
      * now rewrite (getFromKeyStore_migrate key v w Hk Hs Hv).
    + now rewrite (getFromKeyStore_miss key w Hk (or_introl Hs)).
Qed.

(** X6: what [_setToKeyStore] writes, [_getFromKeyStore] reads back: after
    [_setToKeyStore key v], for any value [v], the empty string included,
    [_getFromKeyStore key] resolves with [v] after one read of the current
    store, whatever the legacy store holds; and a read of any other key
    resolves with what it resolved with before the write. *)
Theorem setToKeyStore_then_getFromKeyStore (key v : string) (w : World) :
  let w1 := worldOf (_setToKeyStore key v w) in
  _getFromKeyStore key w1 =
    Resolved v (withTrace (trace w1 ++ [KeychainGet ("0_" ++ key)]) w1) /\
  (forall key' : string,
     key' <> key ->
     valueOf (_getFromKeyStore key' w1) = valueOf (_getFromKeyStore key' w)).
Proof.
  intros w1.
  assert (Hk : keychain w1 =
               <[versionedKey key :=
                   {| Keychain.username := ""; Keychain.password := v |}]>
                 (keychain w)) by reflexivity.
  split.
  - apply (getFromKeyStore_hit key
             {| Keychain.username := ""; Keychain.password := v |} w1).
    rewrite Hk. apply lookup_insert_eq.
  - intros key' Hne. rewrite !getFromKeyStore_value, Hk.
    rewrite lookup_insert_ne
      by (intros H; apply versionedKey_inj in H; congruence).
    reflexivity.
Qed.

Lemma setToKeyStore_then_getFromKeyStore_witness :
  let w := legacyWorld "DevicePin" "000000" in
  let w1 := worldOf (_setToKeyStore "WalletPassword" "" w) in
  valueOf (_getFromKeyStore "WalletPassword" w1) = Some "" /\
  ("DevicePin" <> "WalletPassword" ->
   valueOf (_getFromKeyStore "DevicePin" w1) = Some "000000").
Proof.
  destruct (setToKeyStore_then_getFromKeyStore "WalletPassword" ""
              (legacyWorld "DevicePin" "000000")) as (Hget & Hother).
  split.
  - rewrite Hget. reflexivity.
  - intros Hne. rewrite (Hother "DevicePin" Hne). reflexivity.
Defined.

(** X7: reads are repeatable.  For every key and every content of the two
    stores, a second [_getFromKeyStore] resolves with the same value as the
    first, and it never writes: the current store is what the first read
    left, so a value is migrated at most once. *)
Theorem getFromKeyStore_repeatable (key : string) (w : World) :
  let o1 := _getFromKeyStore key w in
  let o2 := _getFromKeyStore key (worldOf o1) in
  valueOf o2 = valueOf o1 /\
  keychain (worldOf o2) = keychain (worldOf o1) /\
  filter isKeychainSet (emitted (worldOf o1) o2) = [].
Proof.
  intros o1 o2. subst o2.
  destruct (keychain w !! versionedKey key) as [c|] eqn:Hk.
  - assert (E1 := getFromKeyStore_hit key c w Hk). fold o1 in E1.
    rewrite E1. cbn [worldOf].
    rewrite (getFromKeyStore_hit key c (withTrace _ w)) by exact Hk.
    cbn -[emitted]. repeat split.
    erewrite emitted_app by reflexivity. reflexivity.
  - assert (Hmiss :
      secureStore w !! key = None \/ secureStore w !! key = Some "" ->
      let o1 := _getFromKeyStore key w in
      let o2 := _getFromKeyStore key (worldOf o1) in
      valueOf o2 = valueOf o1 /\
      keychain (worldOf o2) = keychain (worldOf o1) /\
      filter isKeychainSet (emitted (worldOf o1) o2) = []).
    { intros Hs o1' o2'. subst o2' o1'.
      rewrite (getFromKeyStore_miss key w Hk Hs). cbn [worldOf].
      rewrite (getFromKeyStore_miss key (withTrace _ w)) by assumption.
      cbn -[emitted]. repeat split.
      erewrite emitted_app by reflexivity. reflexivity. }
    destruct (secureStore w !! key) as [v|] eqn:Hs.
    + destruct (String.eqb_spec v "") as [-> | Hv].
      * apply Hmiss. now right.
      * subst o1. rewrite (getFromKeyStore_migrate key v w Hk Hs Hv).
        cbn [worldOf].
        match goal with |- context [_getFromKeyStore key ?x] =>
          set (w1 := x) end.
        rewrite (getFromKeyStore_hit key
                   {| Keychain.username := ""; Keychain.password := v |} w1)
          by (subst w1; cbn; apply lookup_insert_eq).
        cbn -[emitted w1]. repeat split.
        erewrite emitted_app by reflexivity. reflexivity.
    + apply Hmiss. now left.
Qed.


(** ** When the random source fails *)

(** The world [checkNewPin] leaves when the entries match and the random
    source fails: the PIN is stored, the promise is rejected. *)
Lemma checkNewPin_rejected (L : nat) (w : World) :
  newPin (auth w) = pinVerify (auth w) ->
  String.length (newPin (auth w)) = L ->
  (length (entropy w) < 32)%nat ->
  checkNewPin L w =
    Rejected RandomBytesError
      (withTrace
         (trace w ++
          [KeychainSet "0_DevicePin" "" (newPin (auth w))
             Keychain.WHEN_UNLOCKED_THIS_DEVICE_ONLY;
           RandomBytesCall 32])
         (withKeychain
            (<["0_DevicePin" :=
                 {| Keychain.username := "";
                    Keychain.password := newPin (auth w) |}]>
               (keychain w)) w)).
Proof.
  intros He Hl Hen.
  rewrite (checkNewPin_match L w He Hl).
  unfold bind at 1, _setToKeyStore, Keychain_setInternetCredentials,
    bind at 1, emit.
  cbn -[_generateWalletPassword].
  match goal with |- context [_generateWalletPassword ?w1] =>
    set (w1' := w1) end.
  assert (Hen' : (length (entropy w1') < 32)%nat) by exact Hen.
  rewrite (generateWalletPassword_rejected w1' Hen').
  subst w1'. unfold withTrace, withKeychain. cbn.
  rewrite <- app_assoc. reflexivity.
Qed.



(** X16: the same failure, seen from the keypad.  When the last digit of a
    matching [pinVerify] is typed and the random source fails,
    [pushPinDigit] itself returns normally: the rejection of the
    verification it started is not awaited, so no alert is shown and the
    wallet is not called, although the PIN has been stored. *)
Theorem typing_last_digit_hides_rng_failure (L : nat) (ds : list string)
    (w : World) :
  Forall oneChar ds ->
  ds <> [] ->
  length ds = L ->
  newPin (auth w) = "" ->
  pinVerify (auth w) = "" ->
  (length (entropy w) < 32)%nat ->
  let typed := String.concat "" ds in
  let w' :=
    runOps L (typeDigits ParamNewPin ds ++ typeDigits ParamPinVerify ds) w in
  trace w' =
    (trace w ++
     [NavGoSetPasswordConfirm;
      KeychainSet "0_DevicePin" "" typed
        Keychain.WHEN_UNLOCKED_THIS_DEVICE_ONLY;
      RandomBytesCall 32;
      UnhandledRejection RandomBytesError])%list /\
  keychain w' !! "0_DevicePin" =
    Some {| Keychain.username := ""; Keychain.password := typed |} /\
  keychain w' !! "0_WalletPassword" = keychain w !! "0_WalletPassword" /\
  wallet w' = wallet w.
Proof.
  intros Hds Hne Hl Hn Hv Hen typed w'. subst w'.
  rewrite (typing_both_pins L ds ds w Hds Hds Hne Hl Hl Hn Hv).
  unfold detach.
  rewrite checkNewPin_rejected.
  - cbn. fold typed. repeat split.
    + now rewrite <- !app_assoc.
    + apply lookup_insert_eq.
    + now rewrite lookup_insert_ne by discriminate.
  - reflexivity.
  - cbn. rewrite (length_concat_oneChar ds Hds). exact Hl.
  - exact Hen.
Qed.

Lemma typing_last_digit_hides_rng_failure_witness :
  let w' :=
    runOps 2
      (typeDigits ParamNewPin ["7"; "7"] ++
       typeDigits ParamPinVerify ["7"; "7"]) (freshWorld 0) in
  trace w' =
    [NavGoSetPasswordConfirm;
     KeychainSet "0_DevicePin" "" "77"
       Keychain.WHEN_UNLOCKED_THIS_DEVICE_ONLY;
     RandomBytesCall 32;
     UnhandledRejection RandomBytesError] /\
  wallet w' = noPasswords.
Proof.
  destruct (typing_last_digit_hides_rng_failure 2 ["7"; "7"] (freshWorld 0))
    as (Ht & _ & _ & Hw).
  - repeat constructor.
  - discriminate.
  - reflexivity.
  - reflexivity.
  - reflexivity.
  - simpl. lia.
  - split; [exact Ht | exact Hw].
Defined.

(** ** Unlocking, from what the stores hold *)

(** [_unlockWallet] on a device whose current store holds the secret. *)
Lemma unlockWallet_stored (w : World) (cs : Keychain.Credentials) :
  keychain w !! versionedKey PASS = Some cs ->
  _unlockWallet w =
    Resolved tt
      {| auth := auth w;
         wallet := {| newPassword := newPassword (wallet w);
                      passwordVerify := passwordVerify (wallet w);
                      password := Keychain.password cs |};
         keychain := keychain w;
         secureStore := secureStore w;
         fingerprint := fingerprint w;
         entropy := entropy w;
         trace :=
           trace w ++
           [KeychainGet "0_WalletPassword";
            WalletCheckPassword (Keychain.password cs)] |}.
Proof.
  intros Hs.
  rewrite (unlockWallet_resolved w _ _ (getFromKeyStore_hit PASS cs w Hs)).
  unfold withTrace, withWallet. cbn.
  rewrite <- app_assoc. reflexivity.
Qed.

(** [checkPin] on a device whose current store holds the PIN and the
    secret: the legacy store is not read. *)
Lemma checkPin_stored (w : World) (cp cs : Keychain.Credentials) :
  keychain w !! versionedKey PIN = Some cp ->
  keychain w !! versionedKey PASS = Some cs ->
  checkPin w =
    if String.eqb (pin (auth w)) (Keychain.password cp)
    then
      Resolved tt
        {| auth := auth w;
           wallet := {| newPassword := newPassword (wallet w);
                        passwordVerify := passwordVerify (wallet w);
                        password := Keychain.password cs |};
           keychain := keychain w;
           secureStore := secureStore w;
           fingerprint := fingerprint w;
           entropy := entropy w;
           trace :=
             trace w ++
             [KeychainGet "0_DevicePin"; KeychainGet "0_WalletPassword";
              WalletCheckPassword (Keychain.password cs)] |}
    else
      Resolved tt
        (withTrace
           (trace w ++
            [KeychainGet "0_DevicePin";
             AlertAlert "Incorrect PIN" "" [tryAgain CbInitPin]]) w).
Proof.
  intros Hp Hs.
  assert (E1 := getFromKeyStore_hit PIN cp w Hp).
  destruct (String.eqb_spec (pin (auth w)) (Keychain.password cp))
    as [He | Hne].
  - rewrite (checkPin_match w _ _ E1 He).
    rewrite (unlockWallet_stored _ cs) by exact Hs.
    cbn. rewrite <- app_assoc. reflexivity.
  - rewrite (checkPin_mismatch w _ _ E1 Hne).
    unfold withTrace. cbn. rewrite <- app_assoc. reflexivity.
Qed.

(** X10: a device on which no PIN was ever stored.  With nothing under the
    PIN and the secret in either store, [checkPin] shows the "Incorrect PIN"
    alert for every non-empty entry; for the empty entry the comparison with
    the empty string read from the store succeeds, and the wallet's
    [checkPassword] is called with the empty password. *)
Theorem checkPin_on_device_without_pin (w : World) :
  keychain w !! "0_DevicePin" = None ->
  secureStore w !! "DevicePin" = None ->
  keychain w !! "0_WalletPassword" = None ->
  secureStore w !! "WalletPassword" = None ->
  let o := checkPin w in
  (pin (auth w) <> "" ->
   emitted w o =
     [KeychainGet "0_DevicePin";
      SecureStoreGet "DevicePin" SecureStore.WHEN_UNLOCKED_THIS_DEVICE_ONLY;
      AlertAlert "Incorrect PIN" "" [tryAgain CbInitPin]] /\
   wallet (worldOf o) = wallet w) /\
  (pin (auth w) = "" ->
   emitted w o =
     [KeychainGet "0_DevicePin";
      SecureStoreGet "DevicePin" SecureStore.WHEN_UNLOCKED_THIS_DEVICE_ONLY;
      KeychainGet "0_WalletPassword";
      SecureStoreGet "WalletPassword"
        SecureStore.WHEN_UNLOCKED_THIS_DEVICE_ONLY;
      WalletCheckPassword ""] /\
   password (wallet (worldOf o)) = "").
Proof.
  intros Hkp Hsp Hks Hss o. subst o.
  assert (E1 := getFromKeyStore_miss PIN w Hkp (or_introl Hsp)).
  split.
  - intros Hne. rewrite (checkPin_mismatch w _ _ E1 Hne).
    cbn -[emitted]. split; [|reflexivity].
    apply emitted_app. cbn. now rewrite <- app_assoc.
  - intros He. rewrite (checkPin_match w _ _ E1 He).
    erewrite unlockWallet_resolved
      by (apply getFromKeyStore_miss; [exact Hks | left; exact Hss]).
    cbn -[emitted]. split; [|reflexivity].
    apply emitted_app. cbn. now rewrite <- !app_assoc.
Qed.

Lemma checkPin_on_device_without_pin_witness :
  let o := checkPin (freshWorld 0) in
  let o' :=
    checkPin
      (withAuth {| newPin := ""; pinVerify := ""; pin := "000000" |}
         (freshWorld 0)) in
  password (wallet (worldOf o)) = "" /\
  filter isAlert (emitted (freshWorld 0) o) = [] /\
  wallet (worldOf o') = noPasswords.
Proof.
  destruct (checkPin_on_device_without_pin (freshWorld 0))
    as (_ & H); try reflexivity.
  destruct (H eq_refl) as (He & Hp).
  destruct (checkPin_on_device_without_pin
              (withAuth {| newPin := ""; pinVerify := ""; pin := "000000" |}
                 (freshWorld 0))) as (H' & _); try reflexivity.
  destruct H' as (_ & Hw); [discriminate|].
  split; [exact Hp|]. split; [rewrite He; reflexivity | exact Hw].
Defined.

(** X11: set up, then unlock.  After a successful [checkNewPin], a
    [checkPin] with the same PIN typed into [pin] hands the wallet exactly
    the secret generated at set-up, reading only the current store; with any
    other entry it shows the alert and leaves [wallet.password] alone. *)
Theorem unlock_after_setup (L : nat) (typed : string) (w : World) :
  newPin (auth w) = pinVerify (auth w) ->
  String.length (newPin (auth w)) = L ->
  (32 <= length (entropy w))%nat ->
  let secret := toString_hex (take 32 (entropy w)) in
  let w1 := worldOf (checkNewPin L w) in
  let w2 := withAuth (authSet ParamPin typed (auth w1)) w1 in
  let o := checkPin w2 in
  (typed = newPin (auth w) ->
   password (wallet (worldOf o)) = secret /\
   password (wallet (worldOf o)) = newPassword (wallet w1) /\
   emitted w2 o =
     [KeychainGet "0_DevicePin"; KeychainGet "0_WalletPassword";
      WalletCheckPassword secret]) /\
  (typed <> newPin (auth w) ->
   password (wallet (worldOf o)) = password (wallet w) /\
   emitted w2 o =
     [KeychainGet "0_DevicePin";
      AlertAlert "Incorrect PIN" "" [tryAgain CbInitPin]]).
Proof.
  intros He Hl Hen secret w1 w2 o.
  assert (E1 := checkNewPin_resolved L w He Hl Hen). cbn zeta in E1.
  fold secret in E1.
  assert (Hp : keychain w2 !! versionedKey PIN =
               Some {| Keychain.username := "";
                       Keychain.password := newPin (auth w) |}).
  { subst w2 w1. rewrite E1. cbn.
    rewrite lookup_insert_ne by discriminate. apply lookup_insert_eq. }
  assert (Hs : keychain w2 !! versionedKey PASS =
               Some {| Keychain.username := "";
                       Keychain.password := secret |}).
  { subst w2 w1. rewrite E1. cbn. apply lookup_insert_eq. }
  assert (Eo := checkPin_stored w2 _ _ Hp Hs). fold o in Eo.
  assert (Hpin : pin (auth w2) = typed) by reflexivity.
  rewrite Hpin in Eo. cbn [Keychain.password] in Eo.
  split.
  - intros Ht. apply String.eqb_eq in Ht. rewrite Ht in Eo.
    rewrite Eo. cbn -[emitted secret]. repeat split.
    + subst w1. rewrite E1. reflexivity.
    + apply emitted_app. reflexivity.
  - intros Ht. apply String.eqb_neq in Ht. rewrite Ht in Eo.
    rewrite Eo. cbn -[emitted secret]. split.
    + subst w1. rewrite E1. reflexivity.
    + apply emitted_app. reflexivity.
Qed.

Lemma unlock_after_setup_witness :
  let w :=
    withAuth {| newPin := "123456"; pinVerify := "123456"; pin := "" |}
      (freshWorld 32) in
  let w1 := worldOf (checkNewPin 6 w) in
  password
    (wallet
       (worldOf (checkPin (withAuth (authSet ParamPin "123456" (auth w1)) w1))))
  = toString_hex (repeat "*"%byte 32) /\
  password
    (wallet
       (worldOf (checkPin (withAuth (authSet ParamPin "654321" (auth w1)) w1))))
  = "".
Proof.
  split.
  - destruct (unlock_after_setup 6 "123456"
                (withAuth
                   {| newPin := "123456"; pinVerify := "123456"; pin := "" |}
                   (freshWorld 32))) as (H & _);
      [reflexivity | reflexivity | simpl; lia |].
    destruct (H eq_refl) as (Hp & _). exact Hp.
  - destruct (unlock_after_setup 6 "654321"
                (withAuth
                   {| newPin := "123456"; pinVerify := "123456"; pin := "" |}
                   (freshWorld 32))) as (_ & H);
      [reflexivity | reflexivity | simpl; lia |].
    destruct H as (Hp & _); [discriminate | exact Hp].
Defined.

(** X12: the first unlock of an upgraded device.  With the PIN and the
    secret in the legacy store only (both non-empty) and the right PIN in
    [pin], one [checkPin] migrates both values into the current store,
    each read of the legacy store followed by its write-back, and hands the
    legacy secret to the wallet; the next [checkPin] unlocks from the
    current store alone. *)
Theorem first_unlock_migrates_pin_and_secret (p s : string) (w : World) :
  keychain w !! "0_DevicePin" = None ->
  keychain w !! "0_WalletPassword" = None ->
  secureStore w !! "DevicePin" = Some p ->
  secureStore w !! "WalletPassword" = Some s ->
  p <> "" -> s <> "" ->
  pin (auth w) = p ->
  let o := checkPin w in
  let o' := checkPin (worldOf o) in
  emitted w o =
    [KeychainGet "0_DevicePin";
     SecureStoreGet "DevicePin" SecureStore.WHEN_UNLOCKED_THIS_DEVICE_ONLY;
     KeychainSet "0_DevicePin" "" p Keychain.WHEN_UNLOCKED_THIS_DEVICE_ONLY;
     KeychainGet "0_WalletPassword";
     SecureStoreGet "WalletPassword"
       SecureStore.WHEN_UNLOCKED_THIS_DEVICE_ONLY;
     KeychainSet "0_WalletPassword" "" s
       Keychain.WHEN_UNLOCKED_THIS_DEVICE_ONLY;
     WalletCheckPassword s] /\
  password (wallet (worldOf o)) = s /\
  keychain (worldOf o) =
    <["0_WalletPassword" :=
        {| Keychain.username := ""; Keychain.password := s |}]>
      (<["0_DevicePin" :=
           {| Keychain.username := ""; Keychain.password := p |}]>
         (keychain w)) /\
  emitted (worldOf o) o' =
    [KeychainGet "0_DevicePin"; KeychainGet "0_WalletPassword";
     WalletCheckPassword s] /\
  password (wallet (worldOf o')) = s.
Proof.
  intros Hkp Hks Hsp Hss Hp Hs Hpin o o'.
  assert (E1 := getFromKeyStore_migrate PIN p w Hkp Hsp Hp).
  match type of E1 with _ = Resolved _ ?x => set (w1 := x) in * end.
  assert (Hks1 : keychain w1 !! versionedKey PASS = None).
  { subst w1. cbn. now rewrite lookup_insert_ne by discriminate. }
  assert (E2 := getFromKeyStore_migrate PASS s w1 Hks1 Hss Hs).
  assert (Eo := unlockWallet_resolved w1 s _ E2).
  rewrite <- (checkPin_match w p w1 E1 Hpin) in Eo. fold o in Eo.
  assert (Hk : keychain (worldOf o) =
               <["0_WalletPassword" :=
                   {| Keychain.username := ""; Keychain.password := s |}]>
                 (<["0_DevicePin" :=
                      {| Keychain.username := ""; Keychain.password := p |}]>
                    (keychain w))).
  { rewrite Eo. reflexivity. }
  assert (Hp1 : keychain (worldOf o) !! versionedKey PIN =
                Some {| Keychain.username := ""; Keychain.password := p |}).
  { rewrite Hk. rewrite lookup_insert_ne by discriminate.
    apply lookup_insert_eq. }
  assert (Hs1 : keychain (worldOf o) !! versionedKey PASS =
                Some {| Keychain.username := ""; Keychain.password := s |}).
  { rewrite Hk. apply lookup_insert_eq. }
  assert (Eo' := checkPin_stored (worldOf o) _ _ Hp1 Hs1).
  fold o' in Eo'. rewrite Eo'.
  assert (Hpin' : pin (auth (worldOf o)) = p) by (rewrite Eo; exact Hpin).
  rewrite Hpin'. cbn [Keychain.password]. rewrite String.eqb_refl.
  cbn -[emitted o]. repeat split.
  - rewrite Eo. apply emitted_app. subst w1. cbn.
    now rewrite <- !app_assoc.
  - rewrite Eo. reflexivity.
  - exact Hk.
  - apply emitted_app. reflexivity.
Qed.

Lemma first_unlock_migrates_pin_and_secret_witness :
  let w :=
    withAuth {| newPin := ""; pinVerify := ""; pin := "445566" |}
      {| auth := noPins; wallet := noPasswords; keychain := ∅;
         secureStore :=
           <["DevicePin" := "445566"]> {["WalletPassword" := "c0ffee"]};
         fingerprint := noReader; entropy := []; trace := [] |} in
  password (wallet (worldOf (checkPin w))) = "c0ffee" /\
  emitted (worldOf (checkPin w)) (checkPin (worldOf (checkPin w))) =
    [KeychainGet "0_DevicePin"; KeychainGet "0_WalletPassword";
     WalletCheckPassword "c0ffee"].
Proof.
  destruct (first_unlock_migrates_pin_and_secret "445566" "c0ffee"
    (withAuth {| newPin := ""; pinVerify := ""; pin := "445566" |}
      {| auth := noPins; wallet := noPasswords; keychain := ∅;
         secureStore :=
           <["DevicePin" := "445566"]> {["WalletPassword" := "c0ffee"]};
         fingerprint := noReader; entropy := []; trace := [] |}))
    as (_ & Hp & _ & He & _).
  - reflexivity.
  - reflexivity.
  - reflexivity.
  - reflexivity.
  - discriminate.
  - discriminate.
  - reflexivity.
  - split; [exact Hp | exact He].
Defined.

(** X17: the fingerprint path does not look at the PIN.  With hardware, an
    enrolled finger and a successful challenge, on a device whose current
    store holds the secret, [tryFingerprint] hands that secret to the wallet
    whatever [pin] holds, and reads neither the stored PIN nor the legacy
    store; it shows no alert and leaves the PIN inputs alone. *)
Theorem tryFingerprint_unlocks_without_pin (w : World)
    (cs : Keychain.Credentials) :
  Fingerprint.hasHardwareAsync (fingerprint w) = true ->
  Fingerprint.isEnrolledAsync (fingerprint w) = true ->
  Fingerprint.success (fst (Fingerprint.authenticateAsync (fingerprint w)))
    = true ->
  keychain w !! "0_WalletPassword" = Some cs ->
  let o := tryFingerprint w in
  o = Resolved tt (worldOf o) /\
  emitted w o =
    [FingerprintHasHardware; FingerprintIsEnrolled;
     FingerprintAuthenticate "Unlock your Wallet";
     KeychainGet "0_WalletPassword";
     WalletCheckPassword (Keychain.password cs)] /\
  password (wallet (worldOf o)) = Keychain.password cs /\
  auth (worldOf o) = auth w /\
  keychain (worldOf o) = keychain w.
Proof.
  intros Hh He Hok Hs o. subst o.
  rewrite (tryFingerprint_challenge w Hh He). rewrite Hok.
  rewrite (unlockWallet_stored _ cs) by exact Hs.
  cbn -[emitted Fingerprint.authenticateAsync]. repeat split.
  apply emitted_app. cbn -[Fingerprint.authenticateAsync].
  now rewrite <- !app_assoc.
Qed.

Lemma tryFingerprint_unlocks_without_pin_witness :
  let o := tryFingerprint (lockedWorld "" true) in
  password (wallet (worldOf o)) = toString_hex (repeat "*"%byte 32) /\
  auth (worldOf o) = auth (lockedWorld "" true).
Proof.
  destruct (tryFingerprint_unlocks_without_pin (lockedWorld "" true)
              {| Keychain.username := "";
                 Keychain.password := toString_hex (repeat "*"%byte 32) |})
    as (_ & _ & Hp & Ha & _); try reflexivity.
  split; [exact Hp | exact Ha].
Defined.

(** ** What no operation does to the stores *)

Lemma storesKept_refl (w : World) : storesKept w w.
Proof. split; [reflexivity | intros; reflexivity]. Qed.

Lemma storesKept_trans (w1 w2 w3 : World) :
  storesKept w1 w2 -> storesKept w2 w3 -> storesKept w1 w3.
Proof.
  intros [Hs Hk] [Hs' Hk']. split.
  - now rewrite Hs'.
  - intros k Hn. rewrite (Hk' k Hn). exact (Hk k Hn).
Qed.

(** Equal stores, whatever else differs. *)
Lemma storesKept_same (w w' : World) :
  secureStore w' = secureStore w ->
  keychain w' = keychain w ->
  storesKept w w'.
Proof.
  intros Hs Hk. split; [exact Hs|].
  intros k _. rewrite Hk. reflexivity.
Qed.

Lemma storesKept_insert (w w' : World) (k : string)
    (c : Keychain.Credentials) :
  ownKey k ->
  secureStore w' = secureStore w ->
  keychain w' = <[k := c]> (keychain w) ->
  storesKept w w'.
Proof.
  intros Hown Hs Hk. split; [exact Hs|].
  intros k' Hn. rewrite Hk. apply lookup_insert_ne.
  intros ->. contradiction.
Qed.

Lemma getFromKeyStore_kept (key : string) (w : World) :
  ownKey (versionedKey key) ->
  storesKept w (worldOf (_getFromKeyStore key w)).
Proof.
  intros Hown.
  destruct (keychain w !! versionedKey key) as [c|] eqn:Hk.
  - rewrite (getFromKeyStore_hit key c w Hk). now apply storesKept_same.
  - destruct (secureStore w !! key) as [v|] eqn:Hs.
    + destruct (String.eqb_spec v "") as [-> | Hv].
      * rewrite (getFromKeyStore_miss key w Hk (or_intror Hs)).
        now apply storesKept_same.
      * rewrite (getFromKeyStore_migrate key v w Hk Hs Hv).
        eapply storesKept_insert; [exact Hown | reflexivity | reflexivity].
    + rewrite (getFromKeyStore_miss key w Hk (or_introl Hs)).
      now apply storesKept_same.
Qed.

Lemma unlockWallet_kept (w : World) : storesKept w (worldOf (_unlockWallet w)).
Proof.
  destruct (getFromKeyStore_frame PASS w) as (v & w1 & evs & E & _).
  pose proof (getFromKeyStore_kept PASS w (or_intror eq_refl)) as Hk.
  rewrite E in Hk. rewrite (unlockWallet_resolved w v w1 E).
  eapply storesKept_trans; [exact Hk|]. now apply storesKept_same.
Qed.

Lemma checkPin_kept (w : World) : storesKept w (worldOf (checkPin w)).
Proof.
  destruct (getFromKeyStore_frame PIN w) as (v & w1 & evs & E & _).
  pose proof (getFromKeyStore_kept PIN w (or_introl eq_refl)) as Hk.
  rewrite E in Hk.
  destruct (String.eqb_spec (pin (auth w)) v) as [He | Hne].
  - rewrite (checkPin_match w v w1 E He).
    eapply storesKept_trans; [exact Hk | apply unlockWallet_kept].
  - rewrite (checkPin_mismatch w v w1 E Hne).
    eapply storesKept_trans; [exact Hk|]. now apply storesKept_same.
Qed.

Lemma checkNewPin_kept (L : nat) (w : World) :
  storesKept w (worldOf (checkNewPin L w)).
Proof.
  destruct (String.eqb_spec (newPin (auth w)) (pinVerify (auth w)))
    as [He | Hne];
    [destruct (Nat.eq_dec (String.length (newPin (auth w))) L)
       as [Hl | Hnl]|].
  - destruct (Nat.le_gt_cases 32 (length (entropy w))) as [Hen | Hen].
    + rewrite (checkNewPin_resolved L w He Hl Hen).
      apply (storesKept_trans w
               (withKeychain
                  (<["0_DevicePin" :=
                       {| Keychain.username := "";
                          Keychain.password := newPin (auth w) |}]>
                     (keychain w)) w)).
      * eapply storesKept_insert;
          [left; reflexivity | reflexivity | reflexivity].
      * eapply storesKept_insert;
          [right; reflexivity | reflexivity | reflexivity].
    + rewrite (checkNewPin_rejected L w He Hl Hen).
      eapply storesKept_insert;
        [left; reflexivity | reflexivity | reflexivity].
  - rewrite checkNewPin_mismatch by tauto. now apply storesKept_same.
  - rewrite checkNewPin_mismatch by tauto. now apply storesKept_same.
Qed.

Lemma tryFingerprint_kept (w : World) :
  storesKept w (worldOf (tryFingerprint w)).
Proof.
  destruct (Fingerprint.hasHardwareAsync (fingerprint w)) eqn:Hh;
    [destruct (Fingerprint.isEnrolledAsync (fingerprint w)) eqn:He|].
  - rewrite (tryFingerprint_challenge w Hh He).
    destruct (Fingerprint.success _).
    + eapply storesKept_trans; [|apply unlockWallet_kept].
      now apply storesKept_same.
    + now apply storesKept_same.
  - rewrite (tryFingerprint_unavailable w (or_intror He)).
    now apply storesKept_same.
  - rewrite (tryFingerprint_unavailable w (or_introl Hh)).
    now apply storesKept_same.
Qed.

Lemma detach_kept (m : Action unit) (w0 w : World) :
  storesKept w0 (worldOf (m w)) -> storesKept w0 (worldOf (detach m w)).
Proof.
  unfold detach. destruct (m w) as [a w'|e w']; intros H; [exact H|].
  eapply storesKept_trans; [exact H|]. now apply storesKept_same.
Qed.

Lemma dispatch_kept (L : nat) (p : PinParam) (w : World) :
  storesKept w
    (worldOf
       match p with
       | ParamNewPin => nav_goSetPasswordConfirm w
       | ParamPinVerify => detach (checkNewPin L) w
       | ParamPin => detach checkPin w
       end).
Proof.
  destruct p.
  - now apply storesKept_same.
  - apply detach_kept, checkNewPin_kept.
  - apply detach_kept, checkPin_kept.
Qed.

Lemma pushPinDigit_kept (L : nat) (d : string) (p : PinParam) (w : World) :
  storesKept w (worldOf (pushPinDigit L d p w)).
Proof.
  destruct (Nat.le_gt_cases L (String.length (authGet p (auth w))))
    as [Hge | Hlt].
  - rewrite (pushPinDigit_full L d p w Hge). apply dispatch_kept.
  - rewrite (pushPinDigit_append L d p w Hlt).
    destruct (Nat.ltb (String.length (authGet p (auth w) ++ d)) L).
    + now apply storesKept_same.
    + eapply storesKept_trans; [|apply dispatch_kept].
      now apply storesKept_same.
Qed.

Lemma popPinDigit_kept (p : PinParam) (w : World) :
  storesKept w (worldOf (popPinDigit p w)).
Proof.
  destruct (String.eqb_spec (authGet p (auth w)) "") as [He | Hne].
  - rewrite (popPinDigit_empty p w He).
    destruct p; now apply storesKept_same.
  - rewrite (popPinDigit_nonempty p w Hne). now apply storesKept_same.
Qed.

Lemma runOp_kept (L : nat) (op : Op) (w : World) :
  storesKept w (worldOf (runOp L op w)).
Proof.
  destruct op as [| |d p|p| | |]; cbn [runOp].
  - now apply storesKept_same.
  - now apply storesKept_same.
  - apply pushPinDigit_kept.
  - apply popPinDigit_kept.
  - apply checkNewPin_kept.
  - apply checkPin_kept.
  - apply tryFingerprint_kept.
Qed.

Lemma runOps_kept (L : nat) (ops : list Op) (w : World) :
  storesKept w (runOps L ops w).
Proof.
  revert w. induction ops as [|op ops IH]; intros w.
  - apply storesKept_refl.
  - change (runOps L (op :: ops) w)
      with (runOps L ops (worldOf (runOp L op w))).
    eapply storesKept_trans; [apply runOp_kept | apply IH].
Qed.

(** X13: whatever sequence of operations runs, the legacy store is never
    modified (a migrated value stays there), and in the current store only
    the entries under "0_DevicePin" and "0_WalletPassword" can change:
    every other key reads as before. *)
Theorem stores_change_only_under_own_keys (L : nat) (ops : list Op)
    (w : World) :
  let w' := runOps L ops w in
  secureStore w' = secureStore w /\
  (forall k : string,
     k <> "0_DevicePin" -> k <> "0_WalletPassword" ->
     keychain w' !! k = keychain w !! k).
Proof.
  intros w'. destruct (runOps_kept L ops w) as [Hs Hk].
  split; [exact Hs|].
  intros k Hp Hq. apply Hk. intros [-> | ->]; [now apply Hp | now apply Hq].
Qed.

Lemma stores_change_only_under_own_keys_witness :
  let w := legacyWorld "DevicePin" "12" in
  let w' :=
    runOps 2
      [OpPushPinDigit "1" ParamPin; OpPushPinDigit "2" ParamPin;
       OpTryFingerprint; OpInitSetPin] w in
  secureStore w' = secureStore w /\
  keychain w' !! "1_DevicePin" = keychain w !! "1_DevicePin".
Proof.
  destruct (stores_change_only_under_own_keys 2
              [OpPushPinDigit "1" ParamPin; OpPushPinDigit "2" ParamPin;
               OpTryFingerprint; OpInitSetPin]
              (legacyWorld "DevicePin" "12")) as (Hs & Hk).
  split; [exact Hs|].
  apply Hk; discriminate.
Defined.

(** ** The generated password *)

Lemma fromHex_hexByte (b : byte) (s : string) :
  fromHex (hexByte b ++ s) =
    match fromHex s with
    | Some bytes => Some (b :: bytes)
    | None => None
    end.
Proof. destruct b; reflexivity. Qed.

Lemma fromHex_toString_hex (bytes : list byte) :
  fromHex (toString_hex bytes) = Some bytes.
Proof.
  induction bytes as [|b rest IH]; [reflexivity|].
  change (toString_hex (b :: rest)) with (hexByte b ++ toString_hex rest).
  now rewrite fromHex_hexByte, IH.
Qed.

Lemma toString_hex_inj (bytes bytes' : list byte) :
  toString_hex bytes = toString_hex bytes' -> bytes = bytes'.
Proof.
  intros H. apply (f_equal fromHex) in H.
  rewrite !fromHex_toString_hex in H. now injection H.
Qed.

Lemma secureRandomPassword_resolved (w : World) :
  (32 <= length (entropy w))%nat ->
  _secureRandomPassword w =
    Resolved (toString_hex (take 32 (entropy w)))
      (withEntropy (drop 32 (entropy w))
         (withTrace (trace w ++ [RandomBytesCall 32]) w)).
Proof.
  intros He. apply Nat.leb_le in He.
  unfold _secureRandomPassword, randomBytes, RandomBytes.randomBytes,
    bind, emit, ret.
  cbn -[take drop toString_hex Nat.leb]. rewrite He. reflexivity.
Qed.

Lemma secureRandomPassword_rejected (w : World) :
  (length (entropy w) < 32)%nat ->
  _secureRandomPassword w =
    Rejected RandomBytesError (withTrace (trace w ++ [RandomBytesCall 32]) w).
Proof.
  intros He. apply Nat.leb_gt in He.
  unfold _secureRandomPassword, randomBytes, RandomBytes.randomBytes,
    bind, emit, ret, reject.
  cbn -[take drop toString_hex Nat.leb]. rewrite He.
  destruct w; reflexivity.
Qed.

(** X14: the password keeps all the entropy it was made from.
    [_secureRandomPassword] resolves exactly when the random source serves
    32 bytes, and two calls that resolve with the same password, in any two
    worlds, were served the same 32 bytes: the hex encoding loses
    nothing. *)
Theorem secureRandomPassword_keeps_entropy (w w' : World) :
  (is_Some (valueOf (_secureRandomPassword w)) <->
   (32 <= length (entropy w))%nat) /\
  ((32 <= length (entropy w))%nat ->
   (32 <= length (entropy w'))%nat ->
   valueOf (_secureRandomPassword w) = valueOf (_secureRandomPassword w') ->
   take 32 (entropy w) = take 32 (entropy w')).
Proof.
  split.
  - destruct (Nat.le_gt_cases 32 (length (entropy w))) as [He | He].
    + rewrite (secureRandomPassword_resolved w He).
      split; [intros _; exact He | intros _; eexists; reflexivity].
    + rewrite (secureRandomPassword_rejected w He).
      split; [intros [? H]; discriminate H | lia].
  - intros He He'.
    rewrite (secureRandomPassword_resolved w He),
      (secureRandomPassword_resolved w' He').
    cbn [valueOf]. intros H. injection H as H.
    now apply toString_hex_inj.
Qed.

Lemma secureRandomPassword_keeps_entropy_witness :
  (32 <= length (entropy (freshWorld 32)))%nat /\
  (32 <= length (entropy (freshWorld 40)))%nat /\
  take 32 (entropy (freshWorld 32)) = take 32 (entropy (freshWorld 40)).
Proof.
  assert (H32 : (32 <= length (entropy (freshWorld 32)))%nat)
    by (simpl; lia).
  assert (H40 : (32 <= length (entropy (freshWorld 40)))%nat)
    by (simpl; lia).
  split; [exact H32|]. split; [exact H40|].
  apply (proj2 (secureRandomPassword_keeps_entropy (freshWorld 32)
                  (freshWorld 40)) H32 H40).
  reflexivity.
Defined.

(** X15: two passwords in a row.  With 64 bytes available, two consecutive
    [_secureRandomPassword] calls resolve with the hex encodings of the
    first and of the second 32 bytes of the source, which leaves the source
    64 bytes shorter; the two passwords are equal only if the two draws
    are. *)
Theorem secureRandomPassword_twice (w : World) :
  (64 <= length (entropy w))%nat ->
  let first := take 32 (entropy w) in
  let second := take 32 (drop 32 (entropy w)) in
  exists w1 w2,
    _secureRandomPassword w = Resolved (toString_hex first) w1 /\
    _secureRandomPassword w1 = Resolved (toString_hex second) w2 /\
    entropy w2 = drop 64 (entropy w) /\
    (toString_hex first = toString_hex second <-> first = second).
Proof.
  intros He first second.
  assert (He1 : (32 <= length (entropy w))%nat) by lia.
  rewrite (secureRandomPassword_resolved w He1).
  eexists. eexists. split; [reflexivity|].
  rewrite secureRandomPassword_resolved
    by (cbn [entropy withEntropy]; rewrite length_drop; lia).
  cbn [entropy withEntropy withTrace]. split; [reflexivity|]. split.
  - cbn [entropy]. now rewrite drop_drop.
  - split; [apply toString_hex_inj | now intros ->].
Qed.

Lemma secureRandomPassword_twice_witness :
  exists w1 w2,
    _secureRandomPassword (freshWorld 64) =
      Resolved (toString_hex (repeat "*"%byte 32)) w1 /\
    _secureRandomPassword w1 =
      Resolved (toString_hex (repeat "*"%byte 32)) w2 /\
    entropy w2 = [].
Proof.
  destruct (secureRandomPassword_twice (freshWorld 64))
    as (w1 & w2 & H1 & H2 & H3 & _); [simpl; lia|].
  exists w1, w2. split; [exact H1|]. split; [exact H2 | exact H3].
Defined.

(** ** The unlock flow, from the keypad *)

(** X18: the whole PIN unlock flow.  On a device whose current store holds
    the PIN and the secret, [initPin] followed by typing [L] one-character
    digits navigates to the PIN view and checks the PIN once, on the last
    digit: if the digits are the stored PIN the stored secret is placed in
    [wallet.password] and handed to the wallet; otherwise one "Incorrect
    PIN" alert is shown and the wallet state is untouched.  The legacy
    store is not read. *)
Theorem unlock_flow_from_keypad (L : nat) (ds : list string) (w : World)
    (cp cs : Keychain.Credentials) :
  Forall oneChar ds ->
  ds <> [] ->
  length ds = L ->
  keychain w !! "0_DevicePin" = Some cp ->
  keychain w !! "0_WalletPassword" = Some cs ->
  let typed := String.concat "" ds in
  let w' := runOps L (OpInitPin :: typeDigits ParamPin ds) w in
  pin (auth w') = typed /\
  (typed = Keychain.password cp ->
   password (wallet w') = Keychain.password cs /\
   trace w' =
     (trace w ++
      [NavGoPassword; KeychainGet "0_DevicePin";
       KeychainGet "0_WalletPassword";
       WalletCheckPassword (Keychain.password cs)])%list) /\
  (typed <> Keychain.password cp ->
   wallet w' = wallet w /\
   trace w' =
     (trace w ++
      [NavGoPassword; KeychainGet "0_DevicePin";
       AlertAlert "Incorrect PIN" "" [tryAgain CbInitPin]])%list).
Proof.
  intros Hds Hne Hl Hp Hs typed w'. subst w'.
  change (runOps L (OpInitPin :: typeDigits ParamPin ds) w)
    with (runOps L (typeDigits ParamPin ds) (worldOf (initPin w))).
  set (w0 := worldOf (initPin w)).
  rewrite (typing_full_pin_dispatches_once L ParamPin ds w0 Hds Hne Hl)
    by reflexivity.
  cbn zeta. fold typed.
  set (w1 := withAuth (authSet ParamPin typed (auth w0)) w0).
  unfold detach.
  rewrite (checkPin_stored w1 cp cs Hp Hs).
  change (pin (auth w1)) with typed.
  destruct (String.eqb_spec typed (Keychain.password cp)) as [He | Hn].
  - cbn. split; [reflexivity|]. split; [|intros; contradiction].
    intros _. split; [reflexivity|]. now rewrite <- app_assoc.
  - cbn. split; [reflexivity|]. split; [intros; contradiction|].
    intros _. split; [reflexivity|]. now rewrite <- app_assoc.
Qed.

Lemma unlock_flow_from_keypad_witness :
  let w' :=
    runOps 6
      (OpInitPin :: typeDigits ParamPin ["4"; "4"; "5"; "5"; "6"; "6"])
      (lockedWorld "99" false) in
  let w'' :=
    runOps 6
      (OpInitPin :: typeDigits ParamPin ["4"; "4"; "5"; "5"; "6"; "7"])
      (lockedWorld "99" false) in
  password (wallet w') = toString_hex (repeat "*"%byte 32) /\
  wallet w'' = noPasswords.
Proof.
  split.
  - destruct (unlock_flow_from_keypad 6 ["4"; "4"; "5"; "5"; "6"; "6"]
                (lockedWorld "99" false)
                {| Keychain.username := ""; Keychain.password := "445566" |}
                {| Keychain.username := "";
                   Keychain.password := toString_hex (repeat "*"%byte 32) |})
      as (_ & H & _);
      [repeat constructor | discriminate | reflexivity | reflexivity
      | reflexivity |].
    destruct (H eq_refl) as (Hp & _). exact Hp.
  - destruct (unlock_flow_from_keypad 6 ["4"; "4"; "5"; "5"; "6"; "7"]
                (lockedWorld "99" false)
                {| Keychain.username := ""; Keychain.password := "445566" |}
                {| Keychain.username := "";
                   Keychain.password := toString_hex (repeat "*"%byte 32) |})
      as (_ & _ & H);
      [repeat constructor | discriminate | reflexivity | reflexivity
      | reflexivity |].
    destruct H as (Hw & _); [discriminate | exact Hw].
Defined.

(** ** Deleting *)

Lemma length_slice_0_m1_nonempty (s : string) :
  s <> "" -> String.length (slice_0_m1 s) = (String.length s - 1)%nat.
Proof.
  intros Hne. destruct (nonempty_snoc s Hne) as (r & c & ->).
  rewrite slice_0_m1_snoc, length_append. simpl. lia.
Qed.

Lemma length_zero_empty (s : string) : String.length s = 0%nat -> s = "".
Proof. destruct s; [reflexivity | discriminate]. Qed.

(** X19: holding the delete key.  On [newPin] and on [pin], deleting at
    least as many times as the field has characters leaves the field empty
    and changes nothing else: deleting on the empty field does nothing, and
    no collaborator is called.  (Only an empty [pinVerify] reacts to a
    delete.) *)
Theorem deleting_everything_empties_the_field (L : nat) (p : PinParam)
    (n : nat) (w : World) :
  p <> ParamPinVerify ->
  (String.length (authGet p (auth w)) <= n)%nat ->
  runOps L (repeat (OpPopPinDigit p) n) w =
    withAuth (authSet p "" (auth w)) w.
Proof.
  intros Hp. revert w. induction n as [|n IH]; intros w Hlen.
  - assert (He : authGet p (auth w) = "")
      by (apply length_zero_empty; lia).
    cbn. rewrite <- He, authSet_authGet, withAuth_id. reflexivity.
  - change (runOps L (repeat (OpPopPinDigit p) (S n)) w)
      with (runOps L (repeat (OpPopPinDigit p) n)
              (worldOf (popPinDigit p w))).
    destruct (String.eqb_spec (authGet p (auth w)) "") as [He | Hne].
    + rewrite (popPinDigit_empty p w He).
      assert (Hw : worldOf
                     match p with
                     | ParamPinVerify => initSetPin w
                     | _ => Resolved tt w
                     end = w)
        by (destruct p; [reflexivity | contradiction | reflexivity]).
      rewrite Hw. apply IH. rewrite He. simpl. lia.
    + rewrite (popPinDigit_nonempty p w Hne). cbn [worldOf].
      rewrite IH.
      * cbn [auth withAuth]. now rewrite authSet_authSet.
      * cbn [auth withAuth]. rewrite authGet_authSet.
        destruct (decide (p = p)) as [_|Hn]; [|contradiction].
        rewrite (length_slice_0_m1_nonempty _ Hne). lia.
Qed.

Lemma deleting_everything_empties_the_field_witness :
  runOps 6 (repeat (OpPopPinDigit ParamPin) 4) (lockedWorld "445" false) =
    withAuth (authSet ParamPin "" (auth (lockedWorld "445" false)))
      (lockedWorld "445" false).
Proof.
  apply (deleting_everything_empties_the_field 6 ParamPin 4
           (lockedWorld "445" false)).
  - discriminate.
  - simpl. lia.
Defined.
